(** * redis-jwt-hash-store-validator: a shallow embedding of [RedisJWTHashStore]

    The store hashes a raw JWT with SHA-256, composes a Redis key
    [<prefix>:<keyName>:<jwtHash>] and delegates to a node-redis client.

    Strings are byte strings: a JavaScript string is represented by its
    UTF-8 encoding, which is what both [crypto]'s [update] and the redis
    client put on the wire.  The template literals of the source only
    concatenate with the ASCII delimiter [":"] in between, so concatenation
    of the JavaScript strings and concatenation of their encodings agree. *)

From Stdlib Require Import ZArith QArith_base List String Ascii Lia.
From stdpp Require Import gmap strings list fin_maps.

(** ** Node's [crypto.createHash('sha256')]: SHA-256 as in FIPS 180-4,
    on 32-bit words kept as [Z] with the wrap-around written out. *)
Module SHA256.
Local Open Scope Z_scope.

Definition w32 (x : Z) : Z := x mod 2 ^ 32.
Definition add32 (x y : Z) : Z := w32 (x + y).
Definition not32 (x : Z) : Z := Z.lxor x 0xffffffff.
Definition rotr (n x : Z) : Z := Z.lor (Z.shiftr x n) (w32 (Z.shiftl x (32 - n))).

Definition Ch (x y z : Z) : Z := Z.lxor (Z.land x y) (Z.land (not32 x) z).
Definition Maj (x y z : Z) : Z :=
  Z.lxor (Z.lxor (Z.land x y) (Z.land x z)) (Z.land y z).
Definition bsig0 (x : Z) : Z := Z.lxor (Z.lxor (rotr 2 x) (rotr 13 x)) (rotr 22 x).
Definition bsig1 (x : Z) : Z := Z.lxor (Z.lxor (rotr 6 x) (rotr 11 x)) (rotr 25 x).
Definition ssig0 (x : Z) : Z := Z.lxor (Z.lxor (rotr 7 x) (rotr 18 x)) (Z.shiftr x 3).
Definition ssig1 (x : Z) : Z := Z.lxor (Z.lxor (rotr 17 x) (rotr 19 x)) (Z.shiftr x 10).

(** The constants are taken from their definition: the round constants
    are the first 32 bits of the fractional parts of the cube roots of the
    first 64 primes, the initial chaining words those of the square roots
    of the first 8 primes. *)
Definition is_prime (p : Z) : bool :=
  (1 <? p) && forallb (fun d => negb (p mod Z.of_nat d =? 0)) (seq 2 (Z.to_nat p - 2)).

Definition primes (n : nat) : list Z :=
  firstn n (List.filter is_prime (map Z.of_nat (seq 2 310))).

(** Integer cube root, one bit at a time from the top. *)
Definition cbrt (x : Z) : Z :=
  fold_left (fun r i => let c := r + 2 ^ Z.of_nat i in
                        if c * c * c <=? x then c else r)
            (rev (seq 0 44)) 0.

Definition K : list Z :=
  Eval vm_compute in map (fun p => w32 (cbrt (p * 2 ^ 96))) (primes 64).

(** The eight chaining words. *)
Record hstate : Type := HState
  { ha : Z; hb : Z; hc : Z; hd : Z; he : Z; hf : Z; hg : Z; hh : Z }.

Definition iv (i : nat) : Z :=
  w32 (Z.sqrt (nth i (primes 8) 0 * 2 ^ 64)).

Definition H0 : hstate :=
  Eval vm_compute in
    HState (iv 0) (iv 1) (iv 2) (iv 3) (iv 4) (iv 5) (iv 6) (iv 7).

(** Padding: a [0x80] byte, zero bytes up to 56 modulo 64, then the bit
    length as a 64-bit big-endian integer. *)
Definition be_bytes (n : nat) (x : Z) : list Z :=
  map (fun i => Z.land (Z.shiftr x (8 * Z.of_nat i)) 0xff) (rev (seq 0 n)).

Definition pad (msg : list Z) : list Z :=
  let len := Z.of_nat (length msg) in
  msg ++ [0x80] ++ repeat 0 (Z.to_nat ((55 - len) mod 64))
      ++ be_bytes 8 ((8 * len) mod 2 ^ 64).

Fixpoint words_of_bytes (n : nat) (bs : list Z) : list Z :=
  match n with
  | O => []
  | S n' =>
      match bs with
      | b0 :: b1 :: b2 :: b3 :: rest =>
          Z.lor (Z.shiftl b0 24) (Z.lor (Z.shiftl b1 16) (Z.lor (Z.shiftl b2 8) b3))
          :: words_of_bytes n' rest
      | _ => []
      end
  end.

(** Message schedule: [w] holds W_0 .. W_(t-1); [n] more words are added. *)
Fixpoint schedule (n : nat) (w : list Z) : list Z :=
  match n with
  | O => w
  | S n' =>
      let t := length w in
      let at_ (k : nat) := nth (t - k) w 0 in
      schedule n'
        (w ++ [add32 (add32 (ssig1 (at_ 2%nat)) (at_ 7%nat))
                     (add32 (ssig0 (at_ 15%nat)) (at_ 16%nat))])
  end.

Definition round (s : hstate) (kw : Z * Z) : hstate :=
  let '(k, w) := kw in
  let t1 := add32 (add32 (add32 (hh s) (bsig1 (he s))) (Ch (he s) (hf s) (hg s)))
                  (add32 k w) in
  let t2 := add32 (bsig0 (ha s)) (Maj (ha s) (hb s) (hc s)) in
  HState (add32 t1 t2) (ha s) (hb s) (hc s) (add32 (hd s) t1) (he s) (hf s) (hg s).

Definition compress (s : hstate) (block : list Z) : hstate :=
  let r := fold_left round (combine K (schedule 48 block)) s in
  HState (add32 (ha s) (ha r)) (add32 (hb s) (hb r)) (add32 (hc s) (hc r))
         (add32 (hd s) (hd r)) (add32 (he s) (he r)) (add32 (hf s) (hf r))
         (add32 (hg s) (hg r)) (add32 (hh s) (hh r)).

Fixpoint blocks (n : nat) (s : hstate) (ws : list Z) : hstate :=
  match n with
  | O => s
  | S n' => blocks n' (compress s (firstn 16 ws)) (skipn 16 ws)
  end.

Definition digest (msg : list Z) : hstate :=
  let p := pad msg in
  blocks (length p / 64) H0 (words_of_bytes (length p / 4) p).

(** [digest('hex')]: every word as eight lowercase hexadecimal digits. *)
Definition hex_digit (n : Z) : ascii :=
  if n <? 10 then ascii_of_N (Z.to_N (48 + n))
  else ascii_of_N (Z.to_N (87 + n)).

Definition hex_word (x : Z) : string :=
  string_of_list_ascii
    (map (fun i => hex_digit (Z.land (Z.shiftr x (4 * Z.of_nat i)) 0xf))
         (rev (seq 0 8))).

Definition hex (s : hstate) : string :=
  hex_word (ha s) +:+ hex_word (hb s) +:+ hex_word (hc s) +:+ hex_word (hd s) +:+
  hex_word (he s) +:+ hex_word (hf s) +:+ hex_word (hg s) +:+ hex_word (hh s).

Definition bytes_of_string (s : string) : list Z :=
  map (fun c => Z.of_N (N_of_ascii c)) (list_ascii_of_string s).

End SHA256.

(** [hashJWT]: [crypto.createHash('sha256').update(jwtToken).digest('hex')]. *)
Definition hashJWT (jwtToken : string) : string :=
  SHA256.hex (SHA256.digest (SHA256.bytes_of_string jwtToken)).

(** ** The hash objects of Node's [crypto]

    [createHash] makes a new hash object, [update] feeds bytes to an object
    and returns it, [digest] gives the digest of what was fed and closes
    the object: a closed object throws on a further [update] or [digest].
    The objects alive are kept in the order of their creation. *)
Module Crypto.

Record hash_object : Type := HashObject
  { fed : list Z;
    finalized : bool }.

Inductive outcome (A : Type) : Type :=
| Returned (value : A)
| Thrown (code : string).
Arguments Returned {A} value.
Arguments Thrown {A} code.

Definition hash_finalized : string := "ERR_CRYPTO_HASH_FINALIZED".
Definition no_such_object : string := "TypeError".

Definition createHash (objects : list hash_object) : nat * list hash_object :=
  (length objects, objects ++ [HashObject [] false]).

Definition update (h : nat) (data : string) (objects : list hash_object)
  : outcome nat * list hash_object :=
  match objects !! h with
  | None => (Thrown no_such_object, objects)
  | Some o =>
      if finalized o then (Thrown hash_finalized, objects)
      else (Returned h,
            <[h := HashObject (fed o ++ SHA256.bytes_of_string data) false]> objects)
  end.

Definition digest_hex (h : nat) (objects : list hash_object)
  : outcome string * list hash_object :=
  match objects !! h with
  | None => (Thrown no_such_object, objects)
  | Some o =>
      if finalized o then (Thrown hash_finalized, objects)
      else (Returned (SHA256.hex (SHA256.digest (fed o))),
            <[h := HashObject (fed o) true]> objects)
  end.

End Crypto.

(** [hashJWT] call by call, on the hash objects alive when it is called. *)
Definition hashJWT_calls (jwtToken : string) (objects : list Crypto.hash_object)
  : Crypto.outcome string * list Crypto.hash_object :=
  let (h, objects1) := Crypto.createHash objects in
  match Crypto.update h jwtToken objects1 with
  | (Crypto.Returned h', objects2) => Crypto.digest_hex h' objects2
  | (Crypto.Thrown e, objects2) => (Crypto.Thrown e, objects2)
  end.

(** ** Glob-style patterns of the store's [KEYS] and [SCAN ... MATCH]:
    [*] any run of bytes, [?] one byte, [[...]] a class with [^] negation,
    ranges and escapes, [\] escapes the next byte.  The pattern is first cut
    into tokens, the way the server walks it byte by byte.  A pattern made
    of stars only is taken to match the empty key as well; the patterns
    composed by this program always contain the delimiter, so they are never
    of that kind. *)
Module Glob.

Inductive citem : Type :=
| CChar (c : ascii)
| CRange (lo hi : ascii).

Inductive token : Type :=
| TStar
| TAny
| TClass (negated : bool) (items : list citem)
| TLit (c : ascii).

Definition code (c : ascii) : N := N_of_ascii c.

(** Tokens of a pattern; [cls] is [Some (negated, items so far)] while
    inside a class.  An unterminated class extends to the end of the
    pattern, a trailing backslash stands for itself. *)
Fixpoint tokens (cls : option (bool * list citem)) (p : list ascii) : list token :=
  match cls with
  | None =>
      match p with
      | [] => []
      | "*"%char :: p' => TStar :: tokens None p'
      | "?"%char :: p' => TAny :: tokens None p'
      | "["%char :: "^"%char :: p' => tokens (Some (true, [])) p'
      | "["%char :: p' => tokens (Some (false, [])) p'
      | "\"%char :: c :: p' => TLit c :: tokens None p'
      | c :: p' => TLit c :: tokens None p'
      end
  | Some (neg, items) =>
      match p with
      | [] => [TClass neg items]
      | "\"%char :: c :: p' => tokens (Some (neg, items ++ [CChar c])) p'
      | "]"%char :: p' => TClass neg items :: tokens None p'
      | lo :: "-"%char :: hi :: p' => tokens (Some (neg, items ++ [CRange lo hi])) p'
      | c :: p' => tokens (Some (neg, items ++ [CChar c])) p'
      end
  end.

Definition item_matches (c : ascii) (i : citem) : bool :=
  match i with
  | CChar x => N.eqb (code x) (code c)
  | CRange lo hi =>
      let a := N.min (code lo) (code hi) in
      let b := N.max (code lo) (code hi) in
      N.leb a (code c) && N.leb (code c) b
  end.

Definition token_matches (t : token) (c : ascii) : bool :=
  match t with
  | TStar => false
  | TAny => true
  | TClass neg items => xorb neg (existsb (item_matches c) items)
  | TLit x => N.eqb (code x) (code c)
  end.

(** Matching of a token list against a key.  A star that ends the
    pattern matches whatever is left; otherwise every suffix is tried. *)
Fixpoint gmatch (ts : list token) (s : list ascii) {struct ts} : bool :=
  match ts with
  | [] => match s with [] => true | _ => false end
  | TStar :: ts' =>
      match ts' with
      | [] => true
      | _ =>
          (fix star (s : list ascii) : bool :=
             gmatch ts' s || match s with [] => false | _ :: s' => star s' end) s
      end
  | t :: ts' =>
      match s with
      | [] => false
      | c :: s' => token_matches t c && gmatch ts' s'
      end
  end.

Definition glob_match (pattern key : string) : bool :=
  gmatch (tokens None (list_ascii_of_string pattern)) (list_ascii_of_string key).

End Glob.

(** ** JavaScript numbers

    A finite number is kept as the rational that the double denotes;
    whole numbers up to [max_safe_integer] are the ones that a double
    holds exactly and prints digit by digit. *)
Inductive number : Type :=
| Finite (q : Q)
| Infinity
| NegInfinity
| NaN.

Definition whole (n : Z) : number := Finite (Qmake n 1).

Definition max_safe_integer : Z := 2 ^ 53 - 1.

(** A number used as a condition: [0] and [NaN] are falsy. *)
Definition truthy_number (x : number) : bool :=
  match x with
  | Finite q => negb (Qnum q =? 0)%Z
  | Infinity | NegInfinity => true
  | NaN => false
  end.

(** [x > 0] *)
Definition greater_than_zero (x : number) : bool :=
  match x with
  | Finite q => (0 <? Qnum q)%Z
  | Infinity => true
  | NegInfinity | NaN => false
  end.

(** The integer that a number is, when it is one. *)
Definition integer_value (x : number) : option Z :=
  match x with
  | Finite q =>
      if (Qnum q mod Zpos (Qden q) =? 0)%Z then Some (Qnum q / Zpos (Qden q))%Z
      else None
  | _ => None
  end.

(** ** The node-redis client and the store behind it.

    The store maps a key to a hash (field map) with an optional time to
    live in seconds.  Every call of the client is logged in order, so that
    what a method sends can be stated.  The connection is taken to be up:
    the client's own failures are outside this model. *)
Module Redis.
Local Open Scope Z_scope.

Record entry : Type := Entry
  { fields : gmap string string;
    expiry : option Z }.

Inductive command : Type :=
| HSET (key : string) (fieldMap : list (string * string))
| EXPIRE (key : string) (seconds : number)
| EXISTS (key : string)
| DEL (keyList : list string)
| KEYS (pattern : string)
| SCAN (cursor : nat) (pattern : string)
| HGETALL (key : string)
| TTL (key : string).

Record redis : Type := Redis
  { db : gmap string entry;
    log : list command }.

(** An [async] method: it settles a promise and leaves the store changed. *)
Inductive promise (A : Type) : Type :=
| Fulfilled (value : A)
| Rejected (message : string).
Arguments Fulfilled {A} value.
Arguments Rejected {A} message.

Definition Async (A : Type) : Type := redis -> promise A * redis.

Definition ret {A} (a : A) : Async A := fun r => (Fulfilled a, r).

Definition throw {A} (message : string) : Async A := fun r => (Rejected message, r).

Definition bind {A B} (m : Async A) (k : A -> Async B) : Async B :=
  fun r =>
    match m r with
    | (Fulfilled a, r') => k a r'
    | (Rejected e, r') => (Rejected e, r')
    end.

Definition sent (c : command) (r : redis) : redis :=
  {| db := db r; log := log r ++ [c] |}.

(** HSET: the given fields are set, other fields and the time to live of
    an existing key are kept.  The reply is the number of new fields. *)
Definition hSet (key : string) (fieldMap : list (string * string)) : Async Z :=
  fun r =>
    let old := default (Entry ∅ None) (db r !! key) in
    let new_fields : gmap string string := list_to_map fieldMap in
    (Fulfilled (Z.of_nat (size (new_fields ∖ fields old))),
     {| db := <[key := Entry (new_fields ∪ fields old) (expiry old)]> (db r);
        log := log r ++ [HSET key fieldMap] |}).

(** EXPIRE.  The client sends the number as text.  The server refuses
    what is not an integer of 64 bits, and a time that overflows once in
    milliseconds; the server's clock is not part of the model.  Otherwise
    the reply is 1 when the key exists and 0 when it does not, and a time to
    live that is not positive removes the key. *)
Definition not_an_integer : string := "ERR value is not an integer or out of range".
Definition invalid_expire_time : string := "ERR invalid expire time in 'expire' command".

Definition accepted_seconds (seconds : number) : string + Z :=
  match integer_value seconds with
  | None => inl not_an_integer
  | Some n =>
      if (n <? - 2 ^ 63) || (2 ^ 63 - 1 <? n) then inl not_an_integer
      else if (n <? (- 2 ^ 63) / 1000) || ((2 ^ 63 - 1) / 1000 <? n)
      then inl invalid_expire_time
      else inr n
  end.

Definition expire (key : string) (seconds : number) : Async Z :=
  fun r =>
    match accepted_seconds seconds with
    | inl refusal => (Rejected refusal, sent (EXPIRE key seconds) r)
    | inr n =>
        match db r !! key with
        | None => (Fulfilled 0, sent (EXPIRE key seconds) r)
        | Some e =>
            (Fulfilled 1,
             {| db := if 0 <? n
                      then <[key := Entry (fields e) (Some n)]> (db r)
                      else delete key (db r);
                log := log r ++ [EXPIRE key seconds] |})
        end
    end.

Definition exists_ (key : string) : Async Z :=
  fun r =>
    (Fulfilled (match db r !! key with Some _ => 1 | None => 0 end),
     sent (EXISTS key) r).

Definition del_keys (keyList : list string) (m : gmap string entry) : gmap string entry :=
  foldr delete m keyList.

Definition del (keyList : list string) : Async Z :=
  fun r =>
    (Fulfilled (Z.of_nat (size (db r)) - Z.of_nat (size (del_keys keyList (db r)))),
     {| db := del_keys keyList (db r); log := log r ++ [DEL keyList] |}).

Definition matching (pattern : string) (m : gmap string entry) : list string :=
  List.filter (Glob.glob_match pattern) (map fst (map_to_list m)).

(** KEYS: one call that walks the whole keyspace. *)
Definition keys (pattern : string) : Async (list string) :=
  fun r => (Fulfilled (matching pattern (db r)), sent (KEYS pattern) r).

(** SCAN: one step of the cursor over the keyspace, ten keys at a time;
    cursor 0 starts the iteration and is returned when it is over. *)
Definition scan (cursor : nat) (pattern : string) : Async (nat * list string) :=
  fun r =>
    let all := map fst (map_to_list (db r)) in
    let page := List.filter (Glob.glob_match pattern) (firstn 10 (skipn cursor all)) in
    let next := if (length all <=? cursor + 10)%nat then O else (cursor + 10)%nat in
    (Fulfilled (next, page), sent (SCAN cursor pattern) r).

Definition hGetAll (key : string) : Async (gmap string string) :=
  fun r => (Fulfilled (default ∅ (fields <$> db r !! key)), sent (HGETALL key) r).

Definition ttl (key : string) : Async Z :=
  fun r =>
    (Fulfilled (match db r !! key with
                | None => -2
                | Some e => default (-1) (expiry e)
                end),
     sent (TTL key) r).

End Redis.
Import Redis.

Notation "x <- 'await' c ;; k" := (bind c (fun x => k))
  (at level 100, c at next level, right associativity, only parsing).
Notation "'await' c ;; k" := (bind c (fun _ => k))
  (at level 100, c at next level, right associativity, only parsing).

(** ** JavaScript conditions of the source *)

(** A number used as a condition: [0] is falsy. *)
Definition truthy (n : Z) : bool := negb (n =? 0)%Z.

(** The argument [expiration] is a number, or [None] when it is
    [undefined].  The guard [expiration && expiration > 0] is written out in
    the two methods that have it. *)

(** ** [class RedisJWTHashStore]

    An instance holds the two prefixes; its client is the store that the
    methods thread.  [redisOptions] and [connect] only concern the
    connection. *)
Record RedisJWTHashStore : Type := Store
  { prefixValid : string;
    prefixBlacklist : string }.

(** The constructor with its defaults. *)
Definition new_store (prefixValid prefixBlacklist : option string) : RedisJWTHashStore :=
  {| prefixValid := default "valid-jwt"%string prefixValid;
     prefixBlacklist := default "blacklisted-jwt"%string prefixBlacklist |}.

Section Methods.
Local Open Scope string_scope.
Variable this : RedisJWTHashStore.

Definition storeValidJWT (keyName rawJWT locale : string) (expiration : option number)
  : Async unit :=
  let jwtHash := hashJWT rawJWT in
  let redisKey := prefixValid this +:+ ":" +:+ keyName +:+ ":" +:+ jwtHash in
  await hSet redisKey
    [("keyName", keyName); ("jwtHash", jwtHash); ("locale", locale)] ;;
  match expiration with
  | Some seconds =>
      if truthy_number seconds && greater_than_zero seconds
      then await expire redisKey seconds ;; ret tt
      else ret tt
  | None => ret tt
  end.

Definition storeBlacklistedJWT (keyName rawJWT locale : string) (expiration : option number)
  : Async unit :=
  let jwtHash := hashJWT rawJWT in
  let redisKey := prefixBlacklist this +:+ ":" +:+ keyName +:+ ":" +:+ jwtHash in
  await hSet redisKey
    [("keyName", keyName); ("jwtHash", jwtHash); ("locale", locale)] ;;
  match expiration with
  | Some seconds =>
      if truthy_number seconds && greater_than_zero seconds
      then await expire redisKey seconds ;; ret tt
      else ret tt
  | None => ret tt
  end.

Definition validateJWT (keyName rawJWT : string) : Async bool :=
  let jwtHash := hashJWT rawJWT in
  let blacklistedKey := prefixBlacklist this +:+ ":" +:+ keyName +:+ ":" +:+ jwtHash in
  let validKey := prefixValid this +:+ ":" +:+ keyName +:+ ":" +:+ jwtHash in
  blacklistedExists <- await exists_ blacklistedKey ;;
  if truthy blacklistedExists then throw "JWT is blacklisted"
  else
    validExists <- await exists_ validKey ;;
    if negb (truthy validExists) then throw "JWT does not exist in valid list"
    else ret true.

Definition deleteRecord (prefix keyName rawJWT : string) : Async unit :=
  let jwtHash := hashJWT rawJWT in
  let redisKey := prefix +:+ ":" +:+ keyName +:+ ":" +:+ jwtHash in
  await del [redisKey] ;; ret tt.

Definition deleteAllByKeyName (prefix keyName : string) : Async unit :=
  let pattern := prefix +:+ ":" +:+ keyName +:+ ":*" in
  keyList <- await keys pattern ;;
  if (0 <? length keyList)%nat
  then await del keyList ;; ret tt
  else ret tt.

End Methods.

(** ** Vocabulary of the statements *)

(** The key layout: [<category-prefix>:<identifier>:<fingerprint>]. *)
Definition record_key (prefix identifier fingerprint : string) : string :=
  (prefix +:+ ":" +:+ identifier +:+ ":" +:+ fingerprint)%string.

(** The three fields of a record, as the object literal passed to [hSet]. *)
Definition record_fields (keyName jwtHash locale : string) : list (string * string) :=
  [("keyName", keyName); ("jwtHash", jwtHash); ("locale", locale)]%string.

(** The messages of the two errors that [validateJWT] throws. *)
Definition Blacklisted : string := "JWT is blacklisted".
Definition NotFound : string := "JWT does not exist in valid list".

Definition lower_hex (c : ascii) : bool :=
  let n := N_of_ascii c in
  ((48 <=? n) && (n <=? 57) || (97 <=? n) && (n <=? 102))%N.

(** The guard [expiration && expiration > 0] of the two store methods. *)
Definition positive_number (x : number) : bool :=
  truthy_number x && greater_than_zero x.

(** A byte that stands for itself in a pattern. *)
Definition literal (c : ascii) : bool :=
  negb (existsb (Ascii.eqb c) ["*"; "?"; "["; "\"]%char).

(** The entry left at a key by the HSET of a record. *)
Definition written (keyName jwtHash locale : string) (old : option entry) : entry :=
  let o := default (Entry ∅ None) old in
  Entry (list_to_map (record_fields keyName jwtHash locale) ∪ fields o) (expiry o).

(** A string free of the pattern's special bytes. *)
Definition literal_string (s : string) : bool :=
  forallb literal (list_ascii_of_string s).


(** ** The usage example, [examples/basic-usage.js]

    The script runs the methods in sequence and writes to the console; a
    script state is the store together with the console calls made so far.
    [connect] and [disconnect] only concern the connection.  An error
    passed to the console is kept by its message. *)
Inductive console_call : Type :=
| ConsoleLog (text : string)
| ConsoleError (label : string) (errorMessage : string).

Record world : Type := World
  { server : redis;
    console : list console_call }.

Definition Script (A : Type) : Type := world -> promise A * world.

(** [await] of a method of the store. *)
Definition run {A} (m : Async A) : Script A :=
  fun w =>
    let (p, r') := m (server w) in
    (p, {| server := r'; console := console w |}).

Definition print (c : console_call) : Script unit :=
  fun w => (Fulfilled tt, {| server := server w; console := console w ++ [c] |}).

Definition then_ {A B} (m : Script A) (k : A -> Script B) : Script B :=
  fun w =>
    match m w with
    | (Fulfilled a, w') => k a w'
    | (Rejected e, w') => (Rejected e, w')
    end.

(** [try { body } catch (err) { handler }] *)
Definition try_catch {A} (body : Script A) (handler : string -> Script A) : Script A :=
  fun w =>
    match body w with
    | (Fulfilled a, w') => (Fulfilled a, w')
    | (Rejected e, w') => handler e w'
    end.

Definition basic_usage : Script unit :=
  try_catch
    (let store := new_store (Some "valid-jwt"%string) (Some "blacklisted-jwt"%string) in
     let rawJWT := "eyJhbGcis..."%string in
     let userKey := "user123"%string in
     let locale := "127.0.0.1"%string in
     let expirationInSeconds := whole 600 in
     then_ (run (storeValidJWT store userKey rawJWT locale (Some expirationInSeconds)))
       (fun _ =>
     then_ (run (validateJWT store userKey rawJWT)) (fun _ =>
     then_ (print (ConsoleLog "Validation successful.")) (fun _ =>
     then_ (run (storeBlacklistedJWT store userKey rawJWT locale
                   (Some expirationInSeconds))) (fun _ =>
     then_ (try_catch
              (then_ (run (validateJWT store userKey rawJWT))
                 (fun _ => fun w => (Fulfilled tt, w)))
              (fun err => print (ConsoleError "Expected validation error:" err)))
       (fun _ =>
     then_ (run (deleteAllByKeyName (prefixValid store) userKey)) (fun _ =>
     run (deleteAllByKeyName (prefixBlacklist store) userKey))))))))
    (fun err => print (ConsoleError "Error:" err)).

(** * Properties *)

(** ** Test vectors *)

(** SHA-256 of the FIPS 180-4 examples and of the empty message. *)
Example hashJWT_abc :
  hashJWT "abc" = "ba7816bf8f01cfea414140de5dae2223b00361a396177a9cb410ff61f20015ad"%string.
Proof. vm_compute. reflexivity. Qed.

Example hashJWT_empty :
  hashJWT "" = "e3b0c44298fc1c149afbf4c8996fb92427ae41e4649b934ca495991b7852b855"%string.
Proof. vm_compute. reflexivity. Qed.

Example hashJWT_two_blocks :
  hashJWT "abcdbcdecdefdefgefghfghighijhijkijkljklmklmnlmnomnopnopq"
  = "248d6a61d20638b8e5c026930c3e6039a33ce45964ff2167f6ecedd419db06c1"%string.
Proof. vm_compute. reflexivity. Qed.

Example K_ends :
  nth 0 SHA256.K 0%Z = 0x428a2f98%Z /\ nth 63 SHA256.K 0%Z = 0xc67178f2%Z
  /\ length SHA256.K = 64.
Proof. repeat split; reflexivity. Qed.

Example H0_ends :
  SHA256.ha SHA256.H0 = 0x6a09e667%Z /\ SHA256.hh SHA256.H0 = 0x5be0cd19%Z.
Proof. split; reflexivity. Qed.

(** Padding at the block boundary: 55 and 56 bytes. *)
Example hashJWT_55_bytes :
  hashJWT (string_of_list_ascii (repeat "a"%char 55))
  = "9f4390f8d30c2dd92ec9f095b65e2b9ae9b0a925a5258e241c9f1e910f734318"%string.
Proof. vm_compute. reflexivity. Qed.

Example hashJWT_56_bytes :
  hashJWT (string_of_list_ascii (repeat "a"%char 56))
  = "b35439a4ac6f0948b6d6f9e3c6af0f5f590ce20f1bde7090ef7970686ec6738a"%string.
Proof. vm_compute. reflexivity. Qed.

(** The token of the repository's tests. *)
Example hashJWT_test_token :
  hashJWT "eyJhbGciOiJIUzI1NiIsInR5cCI6IkpXVCJ9.test"
  = "1d6e94477ac834d9f13a4c737d6c387e1c1cc6e1a3bed7158f977eab0f2c70c5"%string.
Proof. vm_compute. reflexivity. Qed.

(** The patterns of the store. *)
Example glob_literal : Glob.glob_match "valid-jwt:u:*" "valid-jwt:u:ab" = true.
Proof. reflexivity. Qed.
Example glob_other_user : Glob.glob_match "valid-jwt:u:*" "valid-jwt:v:ab" = false.
Proof. reflexivity. Qed.
Example glob_class : Glob.glob_match "k[a-c]?\*" "kbz*" = true.
Proof. reflexivity. Qed.
Example glob_inner_star : Glob.glob_match "a*c*" "abcb" = true.
Proof. reflexivity. Qed.


(** ** Strings and keys *)

Lemma list_ascii_of_string_app (a b : string) :
  list_ascii_of_string (a +:+ b)
  = list_ascii_of_string a ++ list_ascii_of_string b.
Proof. induction a as [|c a IH]; simpl; [reflexivity | now rewrite IH]. Qed.

Lemma length_append (a b : string) :
  String.length (a +:+ b) = String.length a + String.length b.
Proof. induction a as [|c a IH]; simpl; [reflexivity | now rewrite IH]. Qed.

Lemma list_ascii_of_string_inj (a b : string) :
  list_ascii_of_string a = list_ascii_of_string b -> a = b.
Proof.
  intros H.
  rewrite <- (string_of_list_ascii_of_string a), <- (string_of_list_ascii_of_string b).
  now rewrite H.
Qed.

Lemma append_inj_l (a b s : string) : a +:+ s = b +:+ s -> a = b.
Proof.
  intros H. apply list_ascii_of_string_inj.
  apply (f_equal list_ascii_of_string) in H.
  rewrite !list_ascii_of_string_app in H.
  now apply app_inv_tail in H.
Qed.

Lemma record_key_prefix_inj (p q identifier fingerprint : string) :
  record_key p identifier fingerprint = record_key q identifier fingerprint -> p = q.
Proof. unfold record_key. apply append_inj_l. Qed.

(** ** The store *)

Lemma lookup_del_keys (keyList : list string) (m : gmap string entry) (k : string) :
  del_keys keyList m !! k = if decide (k ∈ keyList) then None else m !! k.
Proof.
  unfold del_keys. induction keyList as [|k' ks IH].
  - destruct (decide (k ∈ [])) as [H|_]; [by apply elem_of_nil in H | done].
  - cbn [foldr]. rewrite lookup_delete, IH.
    destruct (decide (k' = k)) as [->|Hne].
    + destruct (decide (k ∈ k :: ks)) as [_|Hn]; [done|].
      exfalso. apply Hn. apply elem_of_cons. by left.
    + destruct (decide (k ∈ ks)) as [Hin|Hn], (decide (k ∈ k' :: ks)) as [Hin'|Hn'];
        try done.
      * exfalso. apply Hn'. apply elem_of_cons. by right.
      * apply elem_of_cons in Hin' as [->|Hin']; done.
Qed.

Lemma elem_of_matching (pattern : string) (m : gmap string entry) (k : string) :
  k ∈ matching pattern m <-> is_Some (m !! k) /\ Glob.glob_match pattern k = true.
Proof.
  unfold matching. rewrite list_elem_of_In, filter_In, in_map_iff. split.
  - intros [[[k' e] [Hk Hin]] Hm]. simpl in Hk. subst k'. split; [|done].
    apply list_elem_of_In, elem_of_map_to_list in Hin. by exists e.
  - intros [[e He] Hm]. split; [|done].
    exists (k, e). split; [done|]. by apply list_elem_of_In, elem_of_map_to_list.
Qed.

(** A literal prefix followed by a final [*] matches every key that
    starts with the prefix. *)
Lemma gmatch_literal_prefix (p s : list ascii) :
  forallb literal p = true ->
  Glob.gmatch (Glob.tokens None (p ++ ["*"%char])) (p ++ s) = true.
Proof.
  induction p as [|c p IH]; intros Hp.
  - reflexivity.
  - simpl in Hp. apply andb_prop in Hp as [Hc Hp]. specialize (IH Hp).
    assert (Ht : Glob.tokens None ((c :: p) ++ ["*"%char])
                 = Glob.TLit c :: Glob.tokens None (p ++ ["*"%char])).
    { unfold literal in Hc. simpl in Hc.
      destruct c as [[] [] [] [] [] [] [] []]; try discriminate Hc; reflexivity. }
    rewrite Ht. simpl. unfold Glob.code. rewrite N.eqb_refl. exact IH.
Qed.

Lemma glob_match_literal_prefix (p s : string) :
  forallb literal (list_ascii_of_string p) = true ->
  Glob.glob_match (p +:+ "*") (p +:+ s) = true.
Proof.
  intros Hp. unfold Glob.glob_match. rewrite !list_ascii_of_string_app.
  by apply gmatch_literal_prefix.
Qed.

(** ** [validateJWT] *)

(** The check of the blacklisted key is the first call, whatever the
    store holds. *)
Lemma validateJWT_first_call this keyName rawJWT r :
  exists rest,
    log (snd (validateJWT this keyName rawJWT r))
    = log r ++ EXISTS (record_key (prefixBlacklist this) keyName (hashJWT rawJWT)) :: rest.
Proof.
  unfold validateJWT, bind, exists_, throw, ret, sent, record_key. cbn.
  destruct (db r !! _); cbn.
  - by eexists.
  - destruct (db r !! _); cbn; rewrite <- app_assoc; by eexists.
Qed.

(** C2: when the blacklisted key of (keyName, hash of rawJWT) exists,
    [validateJWT] asks the store for that key first and only, and rejects
    with "JWT is blacklisted"; nothing is assumed of the valid key, so a
    token recorded both valid and blacklisted is rejected as blacklisted. *)
Theorem validateJWT_blacklisted_first this keyName rawJWT r :
  is_Some (db r !! record_key (prefixBlacklist this) keyName (hashJWT rawJWT)) ->
  validateJWT this keyName rawJWT r
  = (Rejected Blacklisted,
     {| db := db r;
        log := log r ++
          [EXISTS (record_key (prefixBlacklist this) keyName (hashJWT rawJWT))] |}).
Proof.
  intros [e He]. unfold validateJWT, bind, exists_, throw, sent.
  fold (record_key (prefixBlacklist this) keyName (hashJWT rawJWT)).
  rewrite He. reflexivity.
Qed.

(** The verdict of [validateJWT] on a store without the blacklisted key. *)
Lemma validateJWT_verdict_without_blacklist this keyName rawJWT r :
  db r !! record_key (prefixBlacklist this) keyName (hashJWT rawJWT) = None ->
  (db r !! record_key (prefixValid this) keyName (hashJWT rawJWT) = None ->
   fst (validateJWT this keyName rawJWT r) = Rejected NotFound)
  /\ (is_Some (db r !! record_key (prefixValid this) keyName (hashJWT rawJWT)) ->
      fst (validateJWT this keyName rawJWT r) = Fulfilled true).
Proof.
  intros Hb. unfold validateJWT, bind, exists_, throw, ret, sent.
  fold (record_key (prefixBlacklist this) keyName (hashJWT rawJWT)).
  fold (record_key (prefixValid this) keyName (hashJWT rawJWT)).
  rewrite Hb. cbn. split.
  - intros ->. reflexivity.
  - intros [e ->]. reflexivity.
Qed.

(** C3: when the blacklisted key does not exist, [validateJWT] rejects with
    "JWT does not exist in valid list" exactly when the valid key is absent
    and fulfils with [true] exactly when it is present; it only sends the
    two EXISTS calls and leaves the store as it was. *)
Theorem validateJWT_not_blacklisted this keyName rawJWT r :
  db r !! record_key (prefixBlacklist this) keyName (hashJWT rawJWT) = None ->
  let validKey := record_key (prefixValid this) keyName (hashJWT rawJWT) in
  let res := validateJWT this keyName rawJWT r in
  (fst res = Rejected NotFound <-> db r !! validKey = None)
  /\ (fst res = Fulfilled true <-> is_Some (db r !! validKey))
  /\ snd res =
       {| db := db r;
          log := log r ++
            [EXISTS (record_key (prefixBlacklist this) keyName (hashJWT rawJWT));
             EXISTS validKey] |}.
Proof.
  intros Hb validKey res. subst res validKey.
  unfold validateJWT, bind, exists_, throw, ret, sent.
  fold (record_key (prefixBlacklist this) keyName (hashJWT rawJWT)).
  fold (record_key (prefixValid this) keyName (hashJWT rawJWT)).
  rewrite Hb. cbn.
  destruct (db r !! record_key (prefixValid this) keyName (hashJWT rawJWT)) as [e|];
    cbn; rewrite <- app_assoc; cbn; repeat split; done.
Qed.

(** ** [storeBlacklistedJWT] against [storeValidJWT] *)

(** C7: [storeBlacklistedJWT] is [storeValidJWT] run with the blacklist
    prefix in place of the valid one: same hash, same field map, same guard
    on the expiration, same outcome on every store. *)
Theorem storeBlacklistedJWT_is_storeValidJWT this keyName rawJWT locale expiration r :
  storeBlacklistedJWT this keyName rawJWT locale expiration r
  = storeValidJWT {| prefixValid := prefixBlacklist this;
                     prefixBlacklist := prefixBlacklist this |}
                  keyName rawJWT locale expiration r.
Proof. reflexivity. Qed.

(** ** [hashJWT] *)

Lemma hex_word_length (x : Z) : String.length (SHA256.hex_word x) = 8.
Proof. reflexivity. Qed.

Lemma hex_digit_lower (n : Z) :
  (0 <= n < 16)%Z -> lower_hex (SHA256.hex_digit n) = true.
Proof.
  intros Hn.
  assert (Hcases : In n [0; 1; 2; 3; 4; 5; 6; 7; 8; 9; 10; 11; 12; 13; 14; 15]%Z).
  { simpl. lia. }
  simpl in Hcases.
  repeat (destruct Hcases as [<-|Hcases]; [reflexivity|]).
  destruct Hcases.
Qed.

Lemma nibble_range (x : Z) (i : nat) :
  (0 <= Z.land (Z.shiftr x (4 * Z.of_nat i)) 0xf < 16)%Z.
Proof.
  change 0xf%Z with (Z.ones 4). rewrite Z.land_ones by lia.
  apply Z.mod_pos_bound. reflexivity.
Qed.

Lemma hex_word_lower (x : Z) :
  Forall (fun c => lower_hex c = true) (list_ascii_of_string (SHA256.hex_word x)).
Proof.
  unfold SHA256.hex_word. rewrite list_ascii_of_string_of_list_ascii.
  apply Forall_forall. intros c Hc. apply list_elem_of_In, in_map_iff in Hc.
  destruct Hc as [i [<- _]]. apply hex_digit_lower, nibble_range.
Qed.

Lemma hashJWT_length (jwtToken : string) : String.length (hashJWT jwtToken) = 64.
Proof.
  unfold hashJWT, SHA256.hex. rewrite !length_append, !hex_word_length. reflexivity.
Qed.

Lemma hashJWT_lower_hex (jwtToken : string) :
  Forall (fun c => lower_hex c = true) (list_ascii_of_string (hashJWT jwtToken)).
Proof.
  unfold hashJWT, SHA256.hex. rewrite !list_ascii_of_string_app.
  repeat (apply Forall_app; split); apply hex_word_lower.
Qed.

(** ** [storeValidJWT] and [storeBlacklistedJWT] in closed form *)

Lemma positive_number_spec (x : number) :
  positive_number x = true
  <-> x = Infinity \/ exists q, x = Finite q /\ (0 < Qnum q)%Z.
Proof.
  unfold positive_number. destruct x as [q| | |]; cbn.
  - rewrite andb_true_iff, negb_true_iff, Z.eqb_neq, Z.ltb_lt. split.
    + intros [_ H]. right. by exists q.
    + intros [H|[q' [[= <-] H]]]; [discriminate H | lia].
  - split; [by left | done].
  - split; [done | by intros [H|[q [H _]]]].
  - split; [done | by intros [H|[q [H _]]]].
Qed.

Lemma accepted_integer (seconds : number) (n : Z) :
  accepted_seconds seconds = inr n -> integer_value seconds = Some n.
Proof.
  unfold accepted_seconds. destruct (integer_value seconds) as [m|]; [|discriminate].
  destruct (_ || _); [discriminate|]. destruct (_ || _); [discriminate|].
  by intros [= ->].
Qed.

(** What the guard lets through and the server takes is more than zero. *)
Lemma accepted_positive (seconds : number) (n : Z) :
  positive_number seconds = true -> accepted_seconds seconds = inr n -> (0 < n)%Z.
Proof.
  intros Hpos Hacc. apply accepted_integer in Hacc.
  apply positive_number_spec in Hpos as [->|[q [-> Hq]]]; [discriminate Hacc|].
  cbn in Hacc. destruct (Qnum q mod Z.pos (Qden q) =? 0)%Z eqn:Hmod; [|discriminate].
  injection Hacc as <-. apply Z.eqb_eq in Hmod.
  pose proof (Z_div_exact_full_2 (Qnum q) (Z.pos (Qden q)) ltac:(lia) Hmod) as Hex.
  nia.
Qed.

Lemma whole_accepted (n : Z) :
  (0 < n <= max_safe_integer)%Z ->
  positive_number (whole n) = true /\ accepted_seconds (whole n) = inr n.
Proof.
  unfold max_safe_integer. intros Hn. split.
  - apply positive_number_spec. right. eexists. split; [reflexivity|]. cbn. lia.
  - unfold accepted_seconds, whole, integer_value. cbn [Qnum Qden].
    rewrite Z.mod_1_r, Z.div_1_r. cbn [Z.eqb].
    replace (n <? - 2 ^ 63)%Z with false by lia.
    replace (2 ^ 63 - 1 <? n)%Z with false by lia.
    replace (n <? - 2 ^ 63 / 1000)%Z with false
      by (symmetry; apply Z.ltb_ge; change (- 2 ^ 63 / 1000)%Z with (-9223372036854776)%Z; lia).
    replace ((2 ^ 63 - 1) / 1000 <? n)%Z with false
      by (symmetry; apply Z.ltb_ge;
          change ((2 ^ 63 - 1) / 1000)%Z with 9223372036854775%Z; lia).
    reflexivity.
Qed.

Lemma storeValidJWT_expiring this keyName rawJWT locale (seconds : number) (n : Z) r :
  positive_number seconds = true ->
  accepted_seconds seconds = inr n ->
  let redisKey := record_key (prefixValid this) keyName (hashJWT rawJWT) in
  let e := written keyName (hashJWT rawJWT) locale (db r !! redisKey) in
  storeValidJWT this keyName rawJWT locale (Some seconds) r
  = (Fulfilled tt,
     {| db := <[redisKey := Entry (fields e) (Some n)]> (<[redisKey := e]> (db r));
        log := log r ++
          [HSET redisKey (record_fields keyName (hashJWT rawJWT) locale);
           EXPIRE redisKey seconds] |}).
Proof.
  intros Hpos Hacc redisKey e. subst e redisKey.
  pose proof (accepted_positive seconds n Hpos Hacc) as Hn.
  unfold storeValidJWT, bind, hSet, expire, ret.
  fold (record_key (prefixValid this) keyName (hashJWT rawJWT)).
  fold (record_fields keyName (hashJWT rawJWT) locale).
  fold (positive_number seconds). rewrite Hpos, Hacc. cbn [db log].
  replace (0 <? n)%Z with true by lia.
  rewrite lookup_insert_eq. cbn [db log fields]. rewrite <- app_assoc. reflexivity.
Qed.

Lemma storeValidJWT_refused this keyName rawJWT locale (seconds : number)
    (refusal : string) r :
  positive_number seconds = true ->
  accepted_seconds seconds = inl refusal ->
  let redisKey := record_key (prefixValid this) keyName (hashJWT rawJWT) in
  storeValidJWT this keyName rawJWT locale (Some seconds) r
  = (Rejected refusal,
     {| db := <[redisKey := written keyName (hashJWT rawJWT) locale (db r !! redisKey)]>
                (db r);
        log := log r ++
          [HSET redisKey (record_fields keyName (hashJWT rawJWT) locale);
           EXPIRE redisKey seconds] |}).
Proof.
  intros Hpos Hacc redisKey. subst redisKey.
  unfold storeValidJWT, bind, hSet, expire, ret, sent.
  fold (record_key (prefixValid this) keyName (hashJWT rawJWT)).
  fold (record_fields keyName (hashJWT rawJWT) locale).
  fold (positive_number seconds). rewrite Hpos, Hacc. cbn [db log].
  rewrite <- app_assoc. reflexivity.
Qed.

Lemma storeValidJWT_persistent this keyName rawJWT locale expiration r :
  (forall seconds, expiration = Some seconds -> positive_number seconds = false) ->
  let redisKey := record_key (prefixValid this) keyName (hashJWT rawJWT) in
  storeValidJWT this keyName rawJWT locale expiration r
  = (Fulfilled tt,
     {| db := <[redisKey := written keyName (hashJWT rawJWT) locale (db r !! redisKey)]>
                (db r);
        log := log r ++
          [HSET redisKey (record_fields keyName (hashJWT rawJWT) locale)] |}).
Proof.
  intros Hexp redisKey. subst redisKey.
  unfold storeValidJWT, bind, hSet, expire, ret.
  fold (record_key (prefixValid this) keyName (hashJWT rawJWT)).
  fold (record_fields keyName (hashJWT rawJWT) locale).
  cbn [db log].
  destruct expiration as [seconds|]; [|reflexivity].
  fold (positive_number seconds). by rewrite (Hexp seconds eq_refl).
Qed.

Lemma storeBlacklistedJWT_eq this :
  storeBlacklistedJWT this
  = storeValidJWT (Store (prefixBlacklist this) (prefixBlacklist this)).
Proof. reflexivity. Qed.

Lemma written_fields keyName jwtHash locale (old : option entry) :
  fields (written keyName jwtHash locale old)
  = list_to_map (record_fields keyName jwtHash locale) ∪ default ∅ (fields <$> old).
Proof. by destruct old. Qed.

Lemma written_expiry keyName jwtHash locale (old : option entry) :
  expiry (written keyName jwtHash locale old) = old ≫= expiry.
Proof. by destruct old. Qed.

(** The guard on [expiration] holds and the server takes the number, or
    the guard holds and the server refuses it, or the guard fails:
    [expiration] is absent, zero, negative or not a number. *)
Lemma expiration_cases (expiration : option number) :
  (exists seconds n,
      expiration = Some seconds /\ positive_number seconds = true
      /\ accepted_seconds seconds = inr n)
  \/ (exists seconds refusal,
        expiration = Some seconds /\ positive_number seconds = true
        /\ accepted_seconds seconds = inl refusal)
  \/ (forall seconds, expiration = Some seconds -> positive_number seconds = false).
Proof.
  destruct expiration as [seconds|]; [|right; right; intros ? [=]].
  destruct (positive_number seconds) eqn:Hpos.
  - destruct (accepted_seconds seconds) as [refusal|n] eqn:Hacc.
    + right. left. by exists seconds, refusal.
    + left. by exists seconds, n.
  - right. right. by intros ? [= <-].
Qed.

(** C4: [storeValidJWT] writes under the key
    [<prefixValid>:<keyName>:<jwtHash>], where [jwtHash] is the SHA-256
    digest of the bytes of [rawJWT] in lowercase hexadecimal, by one HSET
    whose field map is exactly keyName, jwtHash and locale; these fields
    are then in the hash at that key, and no other key is touched. *)
Theorem storeValidJWT_writes_record this keyName rawJWT locale expiration r :
  let jwtHash := hashJWT rawJWT in
  let redisKey := (prefixValid this +:+ ":" +:+ keyName +:+ ":" +:+ jwtHash)%string in
  let fieldMap := [("keyName", keyName); ("jwtHash", jwtHash); ("locale", locale)]%string in
  let r' := snd (storeValidJWT this keyName rawJWT locale expiration r) in
  jwtHash = SHA256.hex (SHA256.digest (SHA256.bytes_of_string rawJWT))
  /\ String.length jwtHash = 64
  /\ Forall (fun c => lower_hex c = true) (list_ascii_of_string jwtHash)
  /\ (exists rest,
        log r' = log r ++ HSET redisKey fieldMap :: rest
        /\ forall k f, HSET k f ∉ rest)
  /\ fields <$> db r' !! redisKey
     = Some (list_to_map fieldMap ∪ default ∅ (fields <$> db r !! redisKey))
  /\ forall k, k <> redisKey -> db r' !! k = db r !! k.
Proof.
  intros jwtHash redisKey fieldMap r'.
  split; [reflexivity|]. split; [apply hashJWT_length|].
  split; [apply hashJWT_lower_hex|].
  subst r'. change redisKey with (record_key (prefixValid this) keyName jwtHash).
  change fieldMap with (record_fields keyName jwtHash locale). subst jwtHash.
  destruct (expiration_cases expiration)
    as [(s & n & -> & Hpos & Hacc)|[(s & e & -> & Hpos & Hacc)|Hno]].
  - rewrite (storeValidJWT_expiring _ _ _ _ _ n) by done. cbn [snd db log].
    split; [|split].
    + eexists. split; [reflexivity|].
      intros k f Hin. apply list_elem_of_singleton in Hin. discriminate Hin.
    + rewrite lookup_insert_eq. cbn [fmap option_fmap option_map fields].
      by rewrite written_fields.
    + intros k Hk. by rewrite !lookup_insert_ne.
  - rewrite (storeValidJWT_refused _ _ _ _ _ e) by done. cbn [snd db log].
    split; [|split].
    + eexists. split; [reflexivity|].
      intros k f Hin. apply list_elem_of_singleton in Hin. discriminate Hin.
    + rewrite lookup_insert_eq. cbn [fmap option_fmap option_map].
      by rewrite written_fields.
    + intros k Hk. by rewrite lookup_insert_ne.
  - rewrite storeValidJWT_persistent by done. cbn [snd db log]. split; [|split].
    + exists []. split; [reflexivity|]. intros k f Hin. by apply elem_of_nil in Hin.
    + rewrite lookup_insert_eq. cbn [fmap option_fmap option_map].
      by rewrite written_fields.
    + intros k Hk. by rewrite lookup_insert_ne.
Qed.

(** C5, as the code has it: for every positive number [expiration],
    [storeValidJWT] and [storeBlacklistedJWT] send one EXPIRE of the key
    with that number, after the HSET.  When the number is a whole number of
    seconds (up to the largest safe integer) the key then has that time to
    live.  When it is not an integer, or not one of 64 bits, the server
    refuses the EXPIRE: the method rejects with the server's error and the
    key keeps the time to live it had.  With an absent, zero, negative or
    not-a-number [expiration] they send the HSET alone and the key keeps the
    time to live it had before, if any. *)
Theorem expiration_call_iff_positive this keyName rawJWT locale expiration r :
  let fieldMap := record_fields keyName (hashJWT rawJWT) locale in
  let validKey := record_key (prefixValid this) keyName (hashJWT rawJWT) in
  let blacklistedKey := record_key (prefixBlacklist this) keyName (hashJWT rawJWT) in
  let resv := storeValidJWT this keyName rawJWT locale expiration r in
  let resb := storeBlacklistedJWT this keyName rawJWT locale expiration r in
  (forall seconds, expiration = Some seconds -> positive_number seconds = true ->
     log (snd resv) = log r ++ [HSET validKey fieldMap; EXPIRE validKey seconds]
     /\ log (snd resb)
        = log r ++ [HSET blacklistedKey fieldMap; EXPIRE blacklistedKey seconds])
  /\ (forall n, expiration = Some (whole n) -> (0 < n <= max_safe_integer)%Z ->
      fst resv = Fulfilled tt
      /\ db (snd resv) !! validKey ≫= expiry = Some n
      /\ fst resb = Fulfilled tt
      /\ db (snd resb) !! blacklistedKey ≫= expiry = Some n)
  /\ (forall seconds, expiration = Some seconds -> positive_number seconds = true ->
      (forall n, integer_value seconds = Some n -> (2 ^ 63 <= n)%Z) ->
      fst resv = Rejected not_an_integer
      /\ db (snd resv) !! validKey ≫= expiry = db r !! validKey ≫= expiry
      /\ fst resb = Rejected not_an_integer
      /\ db (snd resb) !! blacklistedKey ≫= expiry = db r !! blacklistedKey ≫= expiry)
  /\ ((forall seconds, expiration = Some seconds -> positive_number seconds = false) ->
      fst resv = Fulfilled tt
      /\ log (snd resv) = log r ++ [HSET validKey fieldMap]
      /\ db (snd resv) !! validKey ≫= expiry = db r !! validKey ≫= expiry
      /\ fst resb = Fulfilled tt
      /\ log (snd resb) = log r ++ [HSET blacklistedKey fieldMap]
      /\ db (snd resb) !! blacklistedKey ≫= expiry = db r !! blacklistedKey ≫= expiry).
Proof.
  intros fieldMap validKey blacklistedKey resv resb. subst resv resb.
  rewrite storeBlacklistedJWT_eq. split; [|split; [|split]].
  - intros seconds -> Hpos.
    destruct (accepted_seconds seconds) as [e|n] eqn:Hacc.
    + by rewrite !(storeValidJWT_refused _ _ _ _ _ e).
    + by rewrite !(storeValidJWT_expiring _ _ _ _ _ n).
  - intros n -> Hn. destruct (whole_accepted n Hn) as [Hpos Hacc].
    rewrite !(storeValidJWT_expiring _ _ _ _ _ n) by done.
    cbn [fst snd db log prefixValid]. rewrite !lookup_insert_eq. done.
  - intros seconds -> Hpos Hint.
    assert (Hacc : accepted_seconds seconds = inl not_an_integer).
    { unfold accepted_seconds.
      destruct (integer_value seconds) as [n|] eqn:Hi; [|reflexivity].
      specialize (Hint n eq_refl).
      replace (2 ^ 63 - 1 <? n)%Z with true by lia. by rewrite orb_true_r. }
    rewrite !(storeValidJWT_refused _ _ _ _ _ not_an_integer) by done.
    cbn [fst snd db log prefixValid]. rewrite !lookup_insert_eq.
    cbn [mbind option_bind]. by rewrite !written_expiry.
  - intros Hno. rewrite !storeValidJWT_persistent by done.
    cbn [fst snd db log prefixValid]. rewrite !lookup_insert_eq.
    cbn [mbind option_bind]. by rewrite !written_expiry.
Qed.

(** A time to live of a second and a half, and one of 10^21 seconds: both
    are positive numbers, the EXPIRE is sent and refused, the method
    rejects, and no time to live is set. *)
Lemma expiration_refused_when_not_an_integer :
  let this := new_store None None in
  let r := {| db := ∅; log := [] |} in
  let key := record_key "valid-jwt" "user123" (hashJWT "tok-A") in
  let fieldMap := record_fields "user123" (hashJWT "tok-A") "127.0.0.1" in
  let fraction := Finite (Qmake 3 2) in
  let huge := whole (10 ^ 21) in
  let res1 := storeValidJWT this "user123" "tok-A" "127.0.0.1" (Some fraction) r in
  let res2 := storeValidJWT this "user123" "tok-A" "127.0.0.1" (Some huge) r in
  positive_number fraction = true
  /\ log (snd res1) = [HSET key fieldMap; EXPIRE key fraction]
  /\ fst res1 = Rejected not_an_integer
  /\ db (snd res1) !! key ≫= expiry = None
  /\ positive_number huge = true
  /\ log (snd res2) = [HSET key fieldMap; EXPIRE key huge]
  /\ fst res2 = Rejected not_an_integer
  /\ db (snd res2) !! key ≫= expiry = None.
Proof. vm_compute. repeat split; reflexivity. Qed.

Lemma storeValidJWT_frame this keyName rawJWT locale expiration r (k : string) :
  k <> record_key (prefixValid this) keyName (hashJWT rawJWT) ->
  db (snd (storeValidJWT this keyName rawJWT locale expiration r)) !! k = db r !! k.
Proof.
  intros Hk. destruct (expiration_cases expiration)
    as [(s & n & -> & Hpos & Hacc)|[(s & e & -> & Hpos & Hacc)|Hno]].
  - rewrite (storeValidJWT_expiring _ _ _ _ _ n) by done. cbn [snd db].
    by rewrite !lookup_insert_ne.
  - rewrite (storeValidJWT_refused _ _ _ _ _ e) by done. cbn [snd db].
    by rewrite lookup_insert_ne.
  - rewrite storeValidJWT_persistent by done. cbn [snd db].
    by rewrite lookup_insert_ne.
Qed.

Lemma storeValidJWT_present this keyName rawJWT locale expiration r :
  is_Some (db (snd (storeValidJWT this keyName rawJWT locale expiration r))
           !! record_key (prefixValid this) keyName (hashJWT rawJWT)).
Proof.
  destruct (expiration_cases expiration)
    as [(s & n & -> & Hpos & Hacc)|[(s & e & -> & Hpos & Hacc)|Hno]].
  - rewrite (storeValidJWT_expiring _ _ _ _ _ n) by done. cbn [snd db].
    rewrite lookup_insert_eq. by eexists.
  - rewrite (storeValidJWT_refused _ _ _ _ _ e) by done. cbn [snd db].
    rewrite lookup_insert_eq. by eexists.
  - rewrite storeValidJWT_persistent by done. cbn [snd db].
    rewrite lookup_insert_eq. by eexists.
Qed.

(** The store methods fulfil unless the server refuses the EXPIRE. *)
Lemma storeValidJWT_fulfilled this keyName rawJWT locale expiration r :
  (forall seconds, expiration = Some seconds -> positive_number seconds = true ->
     exists n, accepted_seconds seconds = inr n) ->
  fst (storeValidJWT this keyName rawJWT locale expiration r) = Fulfilled tt.
Proof.
  intros Hok. destruct (expiration_cases expiration)
    as [(s & n & -> & Hpos & Hacc)|[(s & e & -> & Hpos & Hacc)|Hno]].
  - by rewrite (storeValidJWT_expiring _ _ _ _ _ n).
  - destruct (Hok s eq_refl Hpos) as [n Hn]. congruence.
  - by rewrite storeValidJWT_persistent.
Qed.

Lemma six_hundred_accepted :
  forall seconds, Some (whole 600) = Some seconds -> positive_number seconds = true ->
    exists n, accepted_seconds seconds = inr n.
Proof. intros ? [= <-] _. by exists 600%Z. Qed.

(** ** [deleteAllByKeyName] *)

Lemma deleteAllByKeyName_run (prefix keyName : string) r :
  let pattern := (prefix +:+ ":" +:+ keyName +:+ ":*")%string in
  let found := matching pattern (db r) in
  deleteAllByKeyName prefix keyName r
  = (Fulfilled tt,
     match found with
     | [] => {| db := db r; log := log r ++ [KEYS pattern] |}
     | _ :: _ =>
         {| db := del_keys found (db r); log := log r ++ [KEYS pattern; DEL found] |}
     end).
Proof.
  intros pattern found. subst found pattern.
  unfold deleteAllByKeyName, bind, keys, del, ret, sent. cbn [db log].
  destruct (matching _ (db r)) as [|k ks]; cbn; [reflexivity|].
  rewrite <- app_assoc. reflexivity.
Qed.

(** C1, what the code does: [deleteAllByKeyName] composes the pattern
    [<prefix>:<keyName>:*] and lists the matching keys with one KEYS call
    over the whole keyspace; it never sends a SCAN. *)
Theorem deleteAllByKeyName_sends_KEYS (prefix keyName : string) r :
  let pattern := (prefix +:+ ":" +:+ keyName +:+ ":*")%string in
  exists rest,
    log (snd (deleteAllByKeyName prefix keyName r)) = log r ++ KEYS pattern :: rest
    /\ forall cursor p, SCAN cursor p ∉ KEYS pattern :: rest.
Proof.
  intros pattern. rewrite deleteAllByKeyName_run. fold pattern. cbn [snd].
  destruct (matching pattern (db r)) as [|k ks]; cbn [log].
  - exists []. split; [reflexivity|]. intros c p Hin.
    apply list_elem_of_singleton in Hin. discriminate Hin.
  - eexists. split; [reflexivity|]. intros c p Hin.
    apply elem_of_cons in Hin as [Hin|Hin]; [discriminate Hin|].
    apply list_elem_of_singleton in Hin. discriminate Hin.
Qed.

(** C6: when the listing yields at least one key, [deleteAllByKeyName]
    sends exactly one DEL, with all the keys listed, after which none of
    them exists and every other key is as before; when it yields none, no
    DEL is sent and the store is unchanged.  The promise is fulfilled in
    both cases. *)
Theorem deleteAllByKeyName_one_bulk_delete (prefix keyName : string) r :
  let pattern := (prefix +:+ ":" +:+ keyName +:+ ":*")%string in
  let found := matching pattern (db r) in
  let res := deleteAllByKeyName prefix keyName r in
  fst res = Fulfilled tt
  /\ (found <> [] ->
      log (snd res) = log r ++ [KEYS pattern; DEL found]
      /\ (forall k, k ∈ found -> db (snd res) !! k = None)
      /\ (forall k, k ∉ found -> db (snd res) !! k = db r !! k))
  /\ (found = [] ->
      snd res = {| db := db r; log := log r ++ [KEYS pattern] |}).
Proof.
  intros pattern found res. subst res. rewrite deleteAllByKeyName_run.
  fold pattern. fold found. cbn [fst snd]. split; [reflexivity|]. split.
  - intros Hne. destruct found as [|k0 ks] eqn:Hf; [done|]. cbn [db log].
    split; [reflexivity|]. split; intros k Hk; rewrite lookup_del_keys.
    + by destruct (decide (k ∈ k0 :: ks)).
    + by destruct (decide (k ∈ k0 :: ks)).
  - intros ->. reflexivity.
Qed.

(** ** The delimiter inside a keyName *)

(** C9: the keyName is put into the key and into the pattern as it is.
    For the keyNames [user] and [user:admin] of the default store, the
    pattern that [deleteAllByKeyName] composes for [user] matches the key of
    any token stored for [user:admin], and the call removes that key. *)
Theorem delimiter_in_keyName_not_escaped :
  exists I1 rest : string,
    let I2 := (I1 +:+ ":" +:+ rest)%string in
    I1 <> I2
    /\ forall rawJWT locale expiration r,
        let this := new_store None None in
        let key2 := record_key (prefixValid this) I2 (hashJWT rawJWT) in
        let r1 := snd (storeValidJWT this I2 rawJWT locale expiration r) in
        Glob.glob_match (prefixValid this +:+ ":" +:+ I1 +:+ ":*") key2 = true
        /\ is_Some (db r1 !! key2)
        /\ db (snd (deleteAllByKeyName (prefixValid this) I1 r1)) !! key2 = None.
Proof.
  exists "user"%string, "admin"%string. split; [discriminate|].
  intros rawJWT locale expiration r this key2 r1.
  assert (Hm : Glob.glob_match (prefixValid this +:+ ":" +:+ "user" +:+ ":*") key2 = true).
  { subst key2. generalize (hashJWT rawJWT). intros h.
    change (Glob.glob_match ("valid-jwt:user:" +:+ "*")
              ("valid-jwt:user:" +:+ ("admin:" +:+ h)) = true).
    by apply glob_match_literal_prefix. }
  assert (Hp : is_Some (db r1 !! key2)).
  { subst r1 key2. apply storeValidJWT_present. }
  split; [exact Hm|]. split; [exact Hp|].
  rewrite deleteAllByKeyName_run. cbn [snd].
  assert (Hin : key2 ∈ matching (prefixValid this +:+ ":" +:+ "user" +:+ ":*") (db r1)).
  { by apply elem_of_matching. }
  destruct (matching _ (db r1)) as [|k0 ks] eqn:Hf.
  - by apply elem_of_nil in Hin.
  - cbn [db]. rewrite lookup_del_keys. by destruct (decide (key2 ∈ k0 :: ks)).
Qed.

(** ** The fingerprint *)

Lemma hashJWT_calls_run (jwtToken : string) (objects : list Crypto.hash_object) :
  hashJWT_calls jwtToken objects
  = (Crypto.Returned (hashJWT jwtToken),
     objects ++ [Crypto.HashObject (SHA256.bytes_of_string jwtToken) true]).
Proof.
  unfold hashJWT_calls, Crypto.createHash, Crypto.update, Crypto.digest_hex.
  rewrite list_lookup_middle by reflexivity. cbn [Crypto.finalized Crypto.fed app].
  rewrite insert_app_r_alt, Nat.sub_diag by reflexivity. cbn [insert list_insert].
  rewrite list_lookup_middle by reflexivity. cbn [Crypto.finalized Crypto.fed].
  rewrite insert_app_r_alt, Nat.sub_diag by reflexivity. reflexivity.
Qed.

(** C10: whatever hash objects are alive, open or closed, [hashJWT] returns
    the same digest of the token, of 64 lowercase hexadecimal digits: the
    one of a second call right after it, and the one that the methods put
    in their keys, on every store.  It changes no hash object that was
    there: all it leaves is its own object, closed. *)
Theorem hashJWT_deterministic_fixed_length (rawJWT : string)
    (objects : list Crypto.hash_object) :
  let first := hashJWT_calls rawJWT objects in
  let second := hashJWT_calls rawJWT (snd first) in
  fst first = Crypto.Returned (hashJWT rawJWT)
  /\ fst second = fst first
  /\ (forall others, fst (hashJWT_calls rawJWT others) = fst first)
  /\ String.length (hashJWT rawJWT) = 64
  /\ Forall (fun c => lower_hex c = true) (list_ascii_of_string (hashJWT rawJWT))
  /\ (forall h o, objects !! h = Some o -> snd first !! h = Some o)
  /\ (forall h o, snd first !! h = Some o ->
       objects !! h = Some o \/ Crypto.finalized o = true)
  /\ forall this keyName r1 r2,
      exists rest1 rest2,
        log (snd (validateJWT this keyName rawJWT r1))
        = log r1 ++ EXISTS (record_key (prefixBlacklist this) keyName (hashJWT rawJWT))
                    :: rest1
        /\ log (snd (validateJWT this keyName rawJWT r2))
           = log r2 ++ EXISTS (record_key (prefixBlacklist this) keyName (hashJWT rawJWT))
                       :: rest2.
Proof.
  intros first second. subst second first. rewrite !hashJWT_calls_run. cbn [fst snd].
  split; [reflexivity|]. split; [reflexivity|].
  split; [intros others; by rewrite hashJWT_calls_run|].
  split; [apply hashJWT_length|]. split; [apply hashJWT_lower_hex|].
  split; [|split].
  - intros h o Ho. by apply lookup_app_l_Some.
  - intros h o Ho. apply lookup_app_Some in Ho as [Ho|[_ Ho]]; [by left|].
    right. destruct (h - length objects)%nat; [|done]. by injection Ho as <-.
  - intros this keyName r1 r2.
    destruct (validateJWT_first_call this keyName rawJWT r1) as [rest1 H1].
    destruct (validateJWT_first_call this keyName rawJWT r2) as [rest2 H2].
    by exists rest1, rest2.
Qed.

(** * The properties on concrete stores *)

(** A token stored as valid and then as blacklisted, both with a time to
    live: both keys exist and the verdict is "JWT is blacklisted". *)
Lemma validateJWT_blacklisted_first_witness :
  let this := new_store None None in
  let r := snd (bind (storeValidJWT this "user123" "tok-A" "127.0.0.1" (Some (whole 3600)))
                  (fun _ => storeBlacklistedJWT this "user123" "tok-A" "127.0.0.1"
                              (Some (whole 3600)))
                  {| db := ∅; log := [] |}) in
  is_Some (db r !! record_key (prefixValid this) "user123" (hashJWT "tok-A"))
  /\ is_Some (db r !! record_key (prefixBlacklist this) "user123" (hashJWT "tok-A"))
  /\ fst (validateJWT this "user123" "tok-A" r) = Rejected Blacklisted.
Proof.
  cbv zeta.
  split; [vm_compute; eexists; reflexivity|].
  assert (Hb : is_Some
    (db (snd (bind (storeValidJWT (new_store None None) "user123" "tok-A" "127.0.0.1"
                      (Some (whole 3600)))
                (fun _ => storeBlacklistedJWT (new_store None None) "user123" "tok-A"
                            "127.0.0.1" (Some (whole 3600)))
                {| db := ∅; log := [] |}))
     !! record_key (prefixBlacklist (new_store None None)) "user123" (hashJWT "tok-A"))).
  { vm_compute. eexists. reflexivity. }
  split; [exact Hb|].
  rewrite (validateJWT_blacklisted_first _ _ _ _ Hb). reflexivity.
Defined.

(** A token stored as valid only validates; a token never stored does not. *)
Lemma validateJWT_not_blacklisted_witness :
  let this := new_store None None in
  let r := snd (storeValidJWT this "user123" "tok-A" "127.0.0.1" (Some (whole 3600))
                  {| db := ∅; log := [] |}) in
  db r !! record_key (prefixBlacklist this) "user123" (hashJWT "tok-A") = None
  /\ fst (validateJWT this "user123" "tok-A" r) = Fulfilled true
  /\ fst (validateJWT this "user123" "tok-B" r) = Rejected NotFound.
Proof.
  cbv zeta.
  assert (Ha : db (snd (storeValidJWT (new_store None None) "user123" "tok-A" "127.0.0.1"
                          (Some (whole 3600)) {| db := ∅; log := [] |}))
               !! record_key (prefixBlacklist (new_store None None)) "user123"
                    (hashJWT "tok-A") = None).
  { vm_compute. reflexivity. }
  assert (Hb : db (snd (storeValidJWT (new_store None None) "user123" "tok-A" "127.0.0.1"
                          (Some (whole 3600)) {| db := ∅; log := [] |}))
               !! record_key (prefixBlacklist (new_store None None)) "user123"
                    (hashJWT "tok-B") = None).
  { vm_compute. reflexivity. }
  split; [exact Ha|]. split.
  - destruct (validateJWT_not_blacklisted _ _ _ _ Ha) as (_ & Hok & _).
    apply Hok. vm_compute. eexists. reflexivity.
  - destruct (validateJWT_not_blacklisted _ _ _ _ Hb) as (Hnf & _ & _).
    apply Hnf. vm_compute. reflexivity.
Defined.

(** A time to live of 3600 seconds is set by an EXPIRE after the HSET; a
    time to live of 0 sends the HSET alone. *)
Lemma expiration_call_iff_positive_witness :
  let this := new_store None None in
  let r := {| db := ∅; log := [] |} in
  let key := record_key "valid-jwt" "user123" (hashJWT "tok-A") in
  let fieldMap := record_fields "user123" (hashJWT "tok-A") "127.0.0.1" in
  let res := storeValidJWT this "user123" "tok-A" "127.0.0.1" (Some (whole 3600)) r in
  (0 < 3600 <= max_safe_integer)%Z
  /\ log (snd res) = [HSET key fieldMap; EXPIRE key (whole 3600)]
  /\ db (snd res) !! key ≫= expiry = Some 3600%Z
  /\ log (snd (storeValidJWT this "user123" "tok-A" "127.0.0.1" (Some (whole 0)) r))
     = [HSET key fieldMap].
Proof.
  cbv zeta.
  assert (Hrange : (0 < 3600 <= max_safe_integer)%Z) by (vm_compute; split; congruence).
  split; [exact Hrange|].
  destruct (expiration_call_iff_positive (new_store None None) "user123" "tok-A"
              "127.0.0.1" (Some (whole 3600)) {| db := ∅; log := [] |})
    as (Hsent & Hset & _ & _).
  destruct (Hsent (whole 3600) eq_refl eq_refl) as [Hlog _].
  destruct (Hset 3600%Z eq_refl Hrange) as (_ & Httl & _).
  split; [exact Hlog|]. split; [exact Httl|].
  destruct (expiration_call_iff_positive (new_store None None) "user123" "tok-A"
              "127.0.0.1" (Some (whole 0)) {| db := ∅; log := [] |})
    as (_ & _ & _ & Hno).
  assert (Hz : forall seconds, Some (whole 0) = Some seconds ->
                 positive_number seconds = false).
  { intros seconds Heq. injection Heq as <-. reflexivity. }
  destruct (Hno Hz) as (_ & Hlog0 & _). exact Hlog0.
Defined.

(** Two tokens of one keyName are removed by one DEL; on the empty store
    nothing is deleted. *)
Lemma deleteAllByKeyName_one_bulk_delete_witness :
  let this := new_store None None in
  let r := snd (bind (storeValidJWT this "user123" "tok-1" "127.0.0.1" (Some (whole 3600)))
                  (fun _ => storeValidJWT this "user123" "tok-2" "127.0.0.1" (Some (whole 3600)))
                  {| db := ∅; log := [] |}) in
  let found := matching "valid-jwt:user123:*" (db r) in
  found <> []
  /\ log (snd (deleteAllByKeyName "valid-jwt" "user123" r))
     = log r ++ [KEYS "valid-jwt:user123:*"; DEL found]
  /\ (forall k, k ∈ found ->
      db (snd (deleteAllByKeyName "valid-jwt" "user123" r)) !! k = None)
  /\ matching "valid-jwt:user123:*" ∅ = []
  /\ snd (deleteAllByKeyName "valid-jwt" "user123" {| db := ∅; log := [] |})
     = {| db := ∅; log := [KEYS "valid-jwt:user123:*"] |}.
Proof.
  cbv zeta. set (r := snd (bind _ _ _)).
  assert (Hne : matching "valid-jwt:user123:*" (db r) <> []).
  { vm_compute. discriminate. }
  split; [exact Hne|].
  destruct (deleteAllByKeyName_one_bulk_delete "valid-jwt" "user123" r)
    as (_ & Hsome & _).
  destruct (Hsome Hne) as (Hlog & Hgone & _).
  split; [exact Hlog|]. split; [exact Hgone|]. split; [reflexivity|].
  destruct (deleteAllByKeyName_one_bulk_delete "valid-jwt" "user123"
              {| db := ∅; log := [] |}) as (_ & _ & Hnone).
  apply Hnone. reflexivity.
Defined.

(** The digest of a token computed twice, with an open and a closed hash
    object alive; the open object still holds what was fed to it. *)
Lemma hashJWT_deterministic_fixed_length_witness :
  let objects := [Crypto.HashObject [1; 2; 3]%Z false; Crypto.HashObject [] true] in
  let first := hashJWT_calls "tok-A" objects in
  fst first
  = Crypto.Returned "717876b49cd1155c2f9dc247c7438b0ba82066a6ea71ae5a069f506bb52c7f8e"%string
  /\ fst (hashJWT_calls "tok-A" (snd first)) = fst first
  /\ snd first !! 0%nat = Some (Crypto.HashObject [1; 2; 3]%Z false).
Proof.
  cbv zeta.
  destruct (hashJWT_deterministic_fixed_length "tok-A"
              [Crypto.HashObject [1; 2; 3]%Z false; Crypto.HashObject [] true])
    as (Hval & Htwice & _ & _ & _ & Hkept & _).
  split; [rewrite Hval; vm_compute; reflexivity|]. split; [exact Htwice|].
  apply Hkept. reflexivity.
Defined.

(** ** The scenarios of the usage example *)

Example scenario_valid_then_blacklisted :
  let this := new_store None None in
  let r0 := {| db := ∅; log := [] |} in
  let r1 := snd (storeValidJWT this "user123" "tok-A" "127.0.0.1" (Some (whole 3600)) r0) in
  let r2 := snd (storeBlacklistedJWT this "user123" "tok-A" "127.0.0.1" (Some (whole 3600)) r1) in
  fst (validateJWT this "user123" "tok-A" r1) = Fulfilled true
  /\ fst (validateJWT this "user123" "tok-A" r2) = Rejected Blacklisted
  /\ fst (validateJWT this "user123" "tok-B" r0) = Rejected NotFound.
Proof. vm_compute. repeat split; reflexivity. Qed.

Example scenario_delete_all :
  let this := new_store None None in
  let r0 := {| db := ∅; log := [] |} in
  let r1 := snd (storeValidJWT this "user123" "tok-1" "127.0.0.1" (Some (whole 3600)) r0) in
  let r2 := snd (storeValidJWT this "user123" "tok-2" "127.0.0.1" (Some (whole 3600)) r1) in
  let r3 := snd (deleteAllByKeyName (prefixValid this) "user123" r2) in
  fst (validateJWT this "user123" "tok-1" r3) = Rejected NotFound
  /\ fst (validateJWT this "user123" "tok-2" r3) = Rejected NotFound.
Proof. vm_compute. repeat split; reflexivity. Qed.

Example scenario_delete_record :
  let this := new_store None None in
  let r0 := {| db := ∅; log := [] |} in
  let r1 := snd (storeValidJWT this "user123" "tok-A" "127.0.0.1" None r0) in
  db (snd (deleteRecord (prefixValid this) "user123" "tok-A" r1)) = ∅
  /\ fst (deleteRecord (prefixValid this) "user123" "tok-A" r0) = Fulfilled tt.
Proof. vm_compute. repeat split; reflexivity. Qed.

(** ** The checks of the test suite *)

Example test_stored_fields :
  let this := new_store None None in
  let token := "eyJhbGciOiJIUzI1NiIsInR5cCI6IkpXVCJ9.test"%string in
  let r := snd (storeValidJWT this "user123" token "127.0.0.1" (Some (whole 3600))
                  {| db := ∅; log := [] |}) in
  let redisKey := record_key "valid-jwt" "user123" (hashJWT token) in
  fst (hGetAll redisKey r)
  = Fulfilled (list_to_map (record_fields "user123" (hashJWT token) "127.0.0.1"))
  /\ fst (ttl redisKey r) = Fulfilled 3600%Z
  /\ fst (exists_ redisKey (snd (deleteRecord "valid-jwt" "user123" token r)))
     = Fulfilled 0%Z.
Proof. vm_compute. repeat split; reflexivity. Qed.

Example test_no_expiration :
  let this := new_store None None in
  let token := "eyJhbGciOiJIUzI1NiIsInR5cCI6IkpXVCJ9.test"%string in
  let r := snd (storeValidJWT this "user123" token "127.0.0.1" (Some (whole 0))
                  {| db := ∅; log := [] |}) in
  fst (ttl (record_key "valid-jwt" "user123" (hashJWT token)) r) = Fulfilled (-1)%Z.
Proof. vm_compute. reflexivity. Qed.

(** One SCAN step lists the same keys as KEYS on a small store. *)
Example scan_small_store :
  let this := new_store None None in
  let r := snd (storeBlacklistedJWT this "user123" "tok-A" "127.0.0.1" None
                  {| db := ∅; log := [] |}) in
  fst (scan 0 "blacklisted-jwt:user123:*" r)
  = Fulfilled (O, matching "blacklisted-jwt:user123:*" (db r)).
Proof. vm_compute. reflexivity. Qed.

(** * Further properties of the methods *)

(** ** Patterns with a literal prefix *)

Lemma code_inj (a b : ascii) : Glob.code a = Glob.code b -> a = b.
Proof.
  unfold Glob.code. intros H.
  rewrite <- (ascii_N_embedding a), <- (ascii_N_embedding b). now rewrite H.
Qed.

Lemma tokens_literal_app (p q : list ascii) :
  forallb literal p = true ->
  Glob.tokens None (p ++ q) = map Glob.TLit p ++ Glob.tokens None q.
Proof.
  induction p as [|c p IH]; intros Hp; [reflexivity|].
  simpl in Hp. apply andb_prop in Hp as [Hc Hp]. rewrite <- app_comm_cons.
  cbn [map app]. rewrite <- (IH Hp).
  unfold literal in Hc. simpl in Hc.
  destruct c as [[] [] [] [] [] [] [] []]; try discriminate Hc; reflexivity.
Qed.

Lemma gmatch_literals (p : list ascii) (ts : list Glob.token) (s : list ascii) :
  Glob.gmatch (map Glob.TLit p ++ ts) s = true
  <-> exists s', s = p ++ s' /\ Glob.gmatch ts s' = true.
Proof.
  revert s. induction p as [|c p IH]; intros s.
  - cbn [map app]. split; [intros H; by exists s | by intros [s' [-> H]]].
  - cbn [map app]. destruct s as [|c' s]; cbn [Glob.gmatch Glob.token_matches].
    + split; [discriminate | intros [s' [H _]]; discriminate H].
    + rewrite andb_true_iff, N.eqb_eq, IH. split.
      * intros [Hc [s' [-> H]]]. apply code_inj in Hc as ->. by exists s'.
      * intros [s' [[= -> ->] H]]. split; [reflexivity | by exists s'].
Qed.

Lemma gmatch_lit_same (c : ascii) (ts : list Glob.token) (s : list ascii) :
  Glob.gmatch (Glob.TLit c :: ts) (c :: s) = Glob.gmatch ts s.
Proof. cbn [Glob.gmatch Glob.token_matches]. by rewrite N.eqb_refl. Qed.

Lemma gmatch_star_step (t : Glob.token) (ts : list Glob.token) (s : list ascii) :
  Glob.gmatch (Glob.TStar :: t :: ts) s
  = Glob.gmatch (t :: ts) s
    || match s with
       | [] => false
       | _ :: s' => Glob.gmatch (Glob.TStar :: t :: ts) s'
       end.
Proof. destruct s; reflexivity. Qed.

Lemma gmatch_star_skip (t : Glob.token) (ts : list Glob.token) (s1 s2 : list ascii) :
  Glob.gmatch (t :: ts) s2 = true ->
  Glob.gmatch (Glob.TStar :: t :: ts) (s1 ++ s2) = true.
Proof.
  intros H. induction s1 as [|c s1 IH]; rewrite gmatch_star_step.
  - cbn [app]. by rewrite H.
  - cbn [app]. rewrite IH. apply orb_true_r.
Qed.

(** [<literal>*] matches exactly the keys that start with the literal. *)
Lemma glob_match_literal_prefix_iff (p k : string) :
  literal_string p = true ->
  Glob.glob_match (p +:+ "*") k = true <-> exists rest, k = p +:+ rest.
Proof.
  intros Hp. unfold Glob.glob_match.
  rewrite list_ascii_of_string_app, tokens_literal_app by exact Hp.
  rewrite gmatch_literals. cbn. split.
  - intros [s' [Hk _]]. exists (string_of_list_ascii s').
    apply list_ascii_of_string_inj.
    by rewrite list_ascii_of_string_app, list_ascii_of_string_of_list_ascii.
  - intros [rest ->]. exists (list_ascii_of_string rest).
    by rewrite list_ascii_of_string_app.
Qed.

Lemma literal_string_app (a b : string) :
  literal_string (a +:+ b) = literal_string a && literal_string b.
Proof.
  unfold literal_string. rewrite list_ascii_of_string_app. apply forallb_app.
Qed.

(** ** What [deleteAllByKeyName] leaves at a key *)

Lemma deleteAllByKeyName_lookup (prefix keyName : string) r (k : string) :
  db (snd (deleteAllByKeyName prefix keyName r)) !! k
  = if Glob.glob_match (prefix +:+ ":" +:+ keyName +:+ ":*") k then None else db r !! k.
Proof.
  rewrite deleteAllByKeyName_run. cbn [snd].
  set (pattern := (prefix +:+ ":" +:+ keyName +:+ ":*")%string).
  pose proof (elem_of_matching pattern (db r) k) as Hm.
  destruct (matching pattern (db r)) as [|k0 ks] eqn:Hf; cbn [db].
  - destruct (Glob.glob_match pattern k) eqn:Hg; [|reflexivity].
    destruct (db r !! k) as [e|] eqn:Hk; [|reflexivity].
    exfalso. eapply not_elem_of_nil. apply Hm. split; [by eexists | reflexivity].
  - rewrite lookup_del_keys.
    destruct (decide (k ∈ k0 :: ks)) as [Hin|Hn].
    + apply Hm in Hin as [_ ->]. reflexivity.
    + destruct (Glob.glob_match pattern k) eqn:Hg; [|reflexivity].
      destruct (db r !! k) as [e|] eqn:Hk; [|reflexivity].
      exfalso. apply Hn, Hm. split; [by eexists | reflexivity].
Qed.

Lemma string_app_assoc (a b c : string) : (a +:+ b) +:+ c = a +:+ (b +:+ c).
Proof.
  induction a as [|x a IH]; [reflexivity|].
  change (String x ((a +:+ b) +:+ c) = String x (a +:+ (b +:+ c))).
  by rewrite IH.
Qed.

(** Two keys under one prefix are equal only for the same keyName, when
    the fingerprints have the same length. *)
Lemma record_key_inj (prefix k1 k2 h1 h2 : string) :
  String.length h1 = String.length h2 ->
  record_key prefix k1 h1 = record_key prefix k2 h2 -> k1 = k2 /\ h1 = h2.
Proof.
  intros Hlen H. unfold record_key in H.
  apply (f_equal list_ascii_of_string) in H.
  rewrite !list_ascii_of_string_app in H.
  apply app_inv_head in H. cbn [list_ascii_of_string app] in H.
  injection H as H.
  change (list_ascii_of_string k1 ++ [":"%char] ++ list_ascii_of_string h1
          = list_ascii_of_string k2 ++ [":"%char] ++ list_ascii_of_string h2) in H.
  apply app_inj_2 in H as [Hk Hh].
  - split; [by apply list_ascii_of_string_inj|].
    apply list_ascii_of_string_inj. by injection Hh.
  - cbn [app length]. f_equal.
    rewrite <- (string_of_list_ascii_of_string h1), <- (string_of_list_ascii_of_string h2) in Hlen.
    revert Hlen. generalize (list_ascii_of_string h1) (list_ascii_of_string h2).
    intros l1. induction l1 as [|c l1 IH]; intros [|c' l2]; cbn; try done.
    intros [= Hl]. f_equal. by apply IH.
Qed.

(** ** [validateJWT] as a whole *)

Lemma validateJWT_verdict_with_blacklist this keyName rawJWT r :
  is_Some (db r !! record_key (prefixBlacklist this) keyName (hashJWT rawJWT)) ->
  fst (validateJWT this keyName rawJWT r) = Rejected Blacklisted.
Proof.
  intros [e He]. unfold validateJWT, bind, exists_, throw, sent.
  fold (record_key (prefixBlacklist this) keyName (hashJWT rawJWT)).
  rewrite He. reflexivity.
Qed.

(** X1: [validateJWT] fulfils exactly when the blacklisted key is absent
    and the valid key is present; in every other case it rejects with one of
    its two messages. *)
Theorem validateJWT_verdict this keyName rawJWT r :
  let validKey := record_key (prefixValid this) keyName (hashJWT rawJWT) in
  let blacklistedKey := record_key (prefixBlacklist this) keyName (hashJWT rawJWT) in
  let verdict := fst (validateJWT this keyName rawJWT r) in
  (verdict = Fulfilled true
   <-> db r !! blacklistedKey = None /\ is_Some (db r !! validKey))
  /\ (verdict = Rejected Blacklisted <-> is_Some (db r !! blacklistedKey))
  /\ (verdict = Rejected NotFound
      <-> db r !! blacklistedKey = None /\ db r !! validKey = None).
Proof.
  intros validKey blacklistedKey verdict. subst verdict.
  destruct (db r !! blacklistedKey) as [b|] eqn:Hb.
  - rewrite validateJWT_verdict_with_blacklist
      by (fold blacklistedKey; rewrite Hb; by eexists).
    split; [|split]; split; solve [done | by intros [? _]].
  - destruct (validateJWT_verdict_without_blacklist this keyName rawJWT r Hb)
      as [Hnf Hok]. fold validKey in Hnf, Hok.
    destruct (db r !! validKey) as [v|] eqn:Hv.
    + rewrite Hok by by eexists.
      split; [|split]; split;
        solve [done | by intros [? ?] | by intros [_ ?] | by (split; [|eexists])].
    + rewrite Hnf by done.
      split; [|split]; split;
        solve [done | by intros [? ?] | by intros [_ [? ?]]].
Qed.

(** X2: [validateJWT] only reads: it sends one or two EXISTS calls, nothing
    else, and leaves every key of the store as it was. *)
Theorem validateJWT_read_only this keyName rawJWT r :
  let r' := snd (validateJWT this keyName rawJWT r) in
  db r' = db r
  /\ exists calls,
      log r' = log r ++ calls
      /\ (1 <= length calls <= 2)%nat
      /\ forall c, c ∈ calls -> exists key, c = EXISTS key.
Proof.
  unfold validateJWT, bind, exists_, throw, ret, sent. cbn.
  destruct (db r !! _); cbn.
  - split; [reflexivity|]. eexists. split; [reflexivity|]. split; [cbn; lia|].
    intros c Hc. apply list_elem_of_singleton in Hc as ->. by eexists.
  - destruct (db r !! _); cbn; (split; [reflexivity|]);
      rewrite <- app_assoc; (eexists; split; [reflexivity|]); (split; [cbn; lia|]);
      intros c Hc; apply elem_of_cons in Hc as [->|Hc]; try (by eexists);
      apply list_elem_of_singleton in Hc as ->; by eexists.
Qed.

(** X3: once a token is stored as blacklisted for a keyName, [validateJWT]
    rejects it with "JWT is blacklisted", whatever the store held before and
    whatever the prefixes are. *)
Theorem blacklisting_revokes this keyName rawJWT locale expiration r :
  fst (validateJWT this keyName rawJWT
         (snd (storeBlacklistedJWT this keyName rawJWT locale expiration r)))
  = Rejected Blacklisted.
Proof.
  apply validateJWT_verdict_with_blacklist. rewrite storeBlacklistedJWT_eq.
  apply (storeValidJWT_present (Store (prefixBlacklist this) (prefixBlacklist this))).
Qed.

(** ** [deleteRecord] *)

Lemma deleteRecord_run (prefix keyName rawJWT : string) r :
  deleteRecord prefix keyName rawJWT r
  = (Fulfilled tt,
     {| db := delete (record_key prefix keyName (hashJWT rawJWT)) (db r);
        log := log r ++ [DEL [record_key prefix keyName (hashJWT rawJWT)]] |}).
Proof. reflexivity. Qed.

(** X4: [deleteRecord] sends one DEL of the single key
    [<prefix>:<keyName>:<jwtHash>]; afterwards that key does not exist, every
    other key is as before, and the promise is fulfilled. *)
Theorem deleteRecord_removes_its_key (prefix keyName rawJWT : string) r :
  let redisKey := record_key prefix keyName (hashJWT rawJWT) in
  let res := deleteRecord prefix keyName rawJWT r in
  fst res = Fulfilled tt
  /\ log (snd res) = log r ++ [DEL [redisKey]]
  /\ db (snd res) !! redisKey = None
  /\ forall k, k <> redisKey -> db (snd res) !! k = db r !! k.
Proof.
  intros redisKey res. subst res. rewrite deleteRecord_run. fold redisKey.
  cbn [fst snd db log]. repeat split.
  - apply lookup_delete_eq.
  - intros k Hk. by apply lookup_delete_ne.
Qed.

(** X5: [deleteRecord] of a record that does not exist is not an error and
    leaves the store as it was. *)
Theorem deleteRecord_missing_key (prefix keyName rawJWT : string) r :
  db r !! record_key prefix keyName (hashJWT rawJWT) = None ->
  fst (deleteRecord prefix keyName rawJWT r) = Fulfilled tt
  /\ db (snd (deleteRecord prefix keyName rawJWT r)) = db r.
Proof.
  intros Hk. rewrite deleteRecord_run. cbn [fst snd db].
  split; [reflexivity | by apply delete_id].
Qed.

(** X6: after [deleteRecord] under the valid prefix, [validateJWT] of the
    same keyName and token never fulfils: it rejects as blacklisted or as
    not found. *)
Theorem deleteRecord_invalidates this keyName rawJWT r :
  let verdict :=
    fst (validateJWT this keyName rawJWT
           (snd (deleteRecord (prefixValid this) keyName rawJWT r))) in
  verdict = Rejected Blacklisted \/ verdict = Rejected NotFound.
Proof.
  intros verdict. subst verdict. rewrite deleteRecord_run. cbn [snd].
  set (r' := {| db := _; log := _ |}).
  destruct (db r' !! record_key (prefixBlacklist this) keyName (hashJWT rawJWT))
    as [b|] eqn:Hb.
  - left. apply validateJWT_verdict_with_blacklist. rewrite Hb. by eexists.
  - right. apply (validateJWT_verdict_without_blacklist this keyName rawJWT r' Hb).
    subst r'. cbn [db]. apply lookup_delete_eq.
Qed.

(** X7: with two different prefixes, deleting the blacklisted record of a
    token whose valid record exists makes [validateJWT] fulfil again. *)
Theorem deleteRecord_reinstates this keyName rawJWT r :
  prefixValid this <> prefixBlacklist this ->
  is_Some (db r !! record_key (prefixValid this) keyName (hashJWT rawJWT)) ->
  fst (validateJWT this keyName rawJWT
         (snd (deleteRecord (prefixBlacklist this) keyName rawJWT r)))
  = Fulfilled true.
Proof.
  intros Hne Hv. rewrite deleteRecord_run. cbn [snd].
  set (r' := {| db := _; log := _ |}).
  assert (Hb : db r' !! record_key (prefixBlacklist this) keyName (hashJWT rawJWT) = None).
  { subst r'. cbn [db]. apply lookup_delete_eq. }
  apply (validateJWT_verdict_without_blacklist this keyName rawJWT r' Hb).
  subst r'. cbn [db]. rewrite lookup_delete_ne; [exact Hv|].
  intros H. apply record_key_prefix_inj in H. congruence.
Qed.

(** ** [deleteAllByKeyName] with literal and with special keyNames *)

Lemma pattern_literal_prefix (prefix keyName : string) :
  (prefix +:+ ":" +:+ keyName +:+ ":*")%string
  = ((prefix +:+ ":" +:+ keyName +:+ ":") +:+ "*")%string.
Proof. by rewrite !string_app_assoc. Qed.

Lemma literal_key_prefix (prefix keyName : string) :
  literal_string prefix = true -> literal_string keyName = true ->
  literal_string (prefix +:+ ":" +:+ keyName +:+ ":") = true.
Proof.
  intros Hp Hk. rewrite !literal_string_app, Hp, Hk. reflexivity.
Qed.

Lemma literal_pattern_iff (prefix keyName k : string) :
  literal_string prefix = true -> literal_string keyName = true ->
  Glob.glob_match (prefix +:+ ":" +:+ keyName +:+ ":*") k = true
  <-> exists rest, k = prefix +:+ ":" +:+ keyName +:+ ":" +:+ rest.
Proof.
  intros Hp Hk. rewrite pattern_literal_prefix.
  rewrite (glob_match_literal_prefix_iff _ k (literal_key_prefix prefix keyName Hp Hk)).
  split; intros [rest ->]; exists rest; by rewrite !string_app_assoc.
Qed.

(** X8: when the prefix and the keyName contain none of the pattern's
    special bytes, [deleteAllByKeyName] removes exactly the keys that start
    with [<prefix>:<keyName>:] and leaves every other key as it was. *)
Theorem deleteAllByKeyName_literal (prefix keyName : string) r (k : string) :
  literal_string prefix = true ->
  literal_string keyName = true ->
  let r' := snd (deleteAllByKeyName prefix keyName r) in
  ((exists rest, k = prefix +:+ ":" +:+ keyName +:+ ":" +:+ rest) ->
   db r' !! k = None)
  /\ ((~ exists rest, k = prefix +:+ ":" +:+ keyName +:+ ":" +:+ rest) ->
      db r' !! k = db r !! k).
Proof.
  intros Hp Hk r'. subst r'. rewrite deleteAllByKeyName_lookup.
  pose proof (literal_pattern_iff prefix keyName k Hp Hk) as Hiff. split.
  - intros Hpre. apply Hiff in Hpre. by rewrite Hpre.
  - intros Hno. destruct (Glob.glob_match _ k) eqn:Hg; [|reflexivity].
    exfalso. apply Hno, Hiff. reflexivity.
Qed.

(** X9: after [deleteAllByKeyName] no key of the store matches the pattern
    any more, so a second call sends its KEYS and nothing else, and changes
    nothing. *)
Theorem deleteAllByKeyName_twice (prefix keyName : string) r :
  let pattern := (prefix +:+ ":" +:+ keyName +:+ ":*")%string in
  let r' := snd (deleteAllByKeyName prefix keyName r) in
  matching pattern (db r') = []
  /\ snd (deleteAllByKeyName prefix keyName r')
     = {| db := db r'; log := log r' ++ [KEYS pattern] |}.
Proof.
  intros pattern r'.
  assert (Hnone : matching pattern (db r') = []).
  { apply elem_of_nil_inv. intros k Hin. apply elem_of_matching in Hin as [[e He] Hm].
    subst r'. rewrite deleteAllByKeyName_lookup in He. fold pattern in He.
    rewrite Hm in He. discriminate He. }
  split; [exact Hnone|].
  rewrite deleteAllByKeyName_run. fold pattern. rewrite Hnone. reflexivity.
Qed.

(** X10: after [deleteAllByKeyName] under both prefixes, for literal
    prefixes and keyName, [validateJWT] rejects every token of that keyName
    with "JWT does not exist in valid list". *)
Theorem cleanup_then_not_found this keyName rawJWT r :
  literal_string (prefixValid this) = true ->
  literal_string (prefixBlacklist this) = true ->
  literal_string keyName = true ->
  fst (validateJWT this keyName rawJWT
         (snd (deleteAllByKeyName (prefixBlacklist this) keyName
                 (snd (deleteAllByKeyName (prefixValid this) keyName r)))))
  = Rejected NotFound.
Proof.
  intros Hv Hb Hk.
  set (r1 := snd (deleteAllByKeyName (prefixValid this) keyName r)).
  set (r2 := snd (deleteAllByKeyName (prefixBlacklist this) keyName r1)).
  assert (H1 : db r1 !! record_key (prefixValid this) keyName (hashJWT rawJWT) = None).
  { subst r1. rewrite deleteAllByKeyName_lookup.
    replace (Glob.glob_match _ _) with true; [reflexivity|].
    symmetry. apply literal_pattern_iff; [done..|]. by eexists. }
  assert (H2 : db r2 !! record_key (prefixBlacklist this) keyName (hashJWT rawJWT) = None).
  { subst r2. rewrite deleteAllByKeyName_lookup.
    replace (Glob.glob_match _ _) with true; [reflexivity|].
    symmetry. apply literal_pattern_iff; [done..|]. by eexists. }
  apply (validateJWT_verdict_without_blacklist this keyName rawJWT r2 H2).
  subst r2. rewrite deleteAllByKeyName_lookup.
  destruct (Glob.glob_match _ _); [reflexivity | exact H1].
Qed.

(** X11: a keyName with a special byte of the pattern is not found by its
    own pattern.  For the keyName [user[1]] of the default store, the record
    of any token stored for it is still there after
    [deleteAllByKeyName] of that very keyName. *)
Theorem special_keyName_survives_deleteAll :
  exists keyName : string,
    forall rawJWT locale expiration r,
      let this := new_store None None in
      let redisKey := record_key (prefixValid this) keyName (hashJWT rawJWT) in
      let r1 := snd (storeValidJWT this keyName rawJWT locale expiration r) in
      let r2 := snd (deleteAllByKeyName (prefixValid this) keyName r1) in
      Glob.glob_match (prefixValid this +:+ ":" +:+ keyName +:+ ":*") redisKey = false
      /\ is_Some (db r2 !! redisKey)
      /\ db r2 !! redisKey = db r1 !! redisKey.
Proof.
  exists "user[1]"%string. intros rawJWT locale expiration r this redisKey r1 r2.
  assert (Hm : Glob.glob_match (prefixValid this +:+ ":" +:+ "user[1]" +:+ ":*") redisKey
               = false).
  { subst redisKey. generalize (hashJWT rawJWT). intros h. reflexivity. }
  assert (Hsame : db r2 !! redisKey = db r1 !! redisKey).
  { subst r2. rewrite deleteAllByKeyName_lookup. by rewrite Hm. }
  split; [exact Hm|]. split; [|exact Hsame].
  rewrite Hsame. subst r1 redisKey. apply storeValidJWT_present.
Qed.

(** X12: the keyName [*] is a wildcard.  Under a literal prefix,
    [deleteAllByKeyName] of [*] removes the record of every keyName and
    every fingerprint. *)
Theorem star_keyName_deletes_all (prefix keyName fingerprint : string) r :
  literal_string prefix = true ->
  db (snd (deleteAllByKeyName prefix "*" r)) !! record_key prefix keyName fingerprint
  = None.
Proof.
  intros Hp. rewrite deleteAllByKeyName_lookup.
  replace (Glob.glob_match _ _) with true; [reflexivity|]. symmetry.
  unfold Glob.glob_match, record_key. rewrite !list_ascii_of_string_app.
  rewrite tokens_literal_app by exact Hp.
  apply gmatch_literals. eexists. split; [reflexivity|].
  cbn [list_ascii_of_string app Glob.tokens].
  change (Glob.gmatch
            [Glob.TLit ":"; Glob.TStar; Glob.TLit ":"; Glob.TStar]
            (":"%char :: list_ascii_of_string keyName
               ++ ":"%char :: list_ascii_of_string fingerprint) = true).
  rewrite gmatch_lit_same. apply gmatch_star_skip.
  by rewrite gmatch_lit_same.
Qed.

(** ** Records of other keyNames and tokens *)

(** X13: [storeValidJWT] and [storeBlacklistedJWT] for one keyName and
    token leave the record of any other keyName, or of a token with another
    fingerprint, under the same prefix as it was. *)
Theorem store_leaves_other_records this keyName rawJWT locale expiration r
    (otherName otherJWT : string) :
  keyName <> otherName \/ hashJWT rawJWT <> hashJWT otherJWT ->
  db (snd (storeValidJWT this keyName rawJWT locale expiration r))
    !! record_key (prefixValid this) otherName (hashJWT otherJWT)
  = db r !! record_key (prefixValid this) otherName (hashJWT otherJWT)
  /\ db (snd (storeBlacklistedJWT this keyName rawJWT locale expiration r))
       !! record_key (prefixBlacklist this) otherName (hashJWT otherJWT)
     = db r !! record_key (prefixBlacklist this) otherName (hashJWT otherJWT).
Proof.
  intros Hdiff.
  assert (Hne : forall prefix,
    record_key prefix otherName (hashJWT otherJWT)
    <> record_key prefix keyName (hashJWT rawJWT)).
  { intros prefix H. apply record_key_inj in H as [Hk Hh].
    - destruct Hdiff as [Hd|Hd]; by apply Hd.
    - by rewrite !hashJWT_length. }
  split.
  - apply storeValidJWT_frame, Hne.
  - rewrite storeBlacklistedJWT_eq.
    apply (storeValidJWT_frame (Store (prefixBlacklist this) (prefixBlacklist this))), Hne.
Qed.

(** ** What is read back after a store *)

Lemma storeValidJWT_fields this keyName rawJWT locale expiration r :
  fields <$> db (snd (storeValidJWT this keyName rawJWT locale expiration r))
               !! record_key (prefixValid this) keyName (hashJWT rawJWT)
  = Some (list_to_map (record_fields keyName (hashJWT rawJWT) locale)
          ∪ default ∅ (fields <$> db r
                         !! record_key (prefixValid this) keyName (hashJWT rawJWT))).
Proof.
  destruct (expiration_cases expiration)
    as [(s & n & -> & Hpos & Hacc)|[(s & e & -> & Hpos & Hacc)|Hno]].
  - rewrite (storeValidJWT_expiring _ _ _ _ _ n) by done. cbn [snd db].
    rewrite lookup_insert_eq. cbn [fmap option_fmap option_map fields].
    by rewrite written_fields.
  - rewrite (storeValidJWT_refused _ _ _ _ _ e) by done. cbn [snd db].
    rewrite lookup_insert_eq. cbn [fmap option_fmap option_map].
    by rewrite written_fields.
  - rewrite storeValidJWT_persistent by done. cbn [snd db].
    rewrite lookup_insert_eq. cbn [fmap option_fmap option_map].
    by rewrite written_fields.
Qed.

(** X14: after [storeValidJWT], [hGetAll] of the key returns the keyName,
    the fingerprint and the locale just passed, whatever the key held
    before; fields of other names that the key already had are kept, and on
    a key that did not exist the three fields are all there is. *)
Theorem stored_record_reads_back this keyName rawJWT locale expiration r :
  let redisKey := record_key (prefixValid this) keyName (hashJWT rawJWT) in
  let r' := snd (storeValidJWT this keyName rawJWT locale expiration r) in
  exists stored : gmap string string,
    fst (hGetAll redisKey r') = Fulfilled stored
    /\ stored !! "keyName"%string = Some keyName
    /\ stored !! "jwtHash"%string = Some (hashJWT rawJWT)
    /\ stored !! "locale"%string = Some locale
    /\ (forall f : string,
          f <> "keyName"%string -> f <> "jwtHash"%string -> f <> "locale"%string ->
          stored !! f = db r !! redisKey ≫= (fun e => fields e !! f))
    /\ (db r !! redisKey = None ->
        stored = list_to_map (record_fields keyName (hashJWT rawJWT) locale)).
Proof.
  intros redisKey r'.
  exists (list_to_map (record_fields keyName (hashJWT rawJWT) locale)
          ∪ default ∅ (fields <$> db r !! redisKey)).
  split.
  { unfold hGetAll. cbn [fst]. subst r' redisKey.
    rewrite storeValidJWT_fields. reflexivity. }
  unfold record_fields. repeat split.
  - apply lookup_union_Some_l. cbn. apply lookup_insert_eq.
  - apply lookup_union_Some_l. cbn. rewrite lookup_insert_ne by done.
    apply lookup_insert_eq.
  - apply lookup_union_Some_l. cbn. rewrite !lookup_insert_ne by done.
    apply lookup_insert_eq.
  - intros f H1 H2 H3. rewrite lookup_union_r.
    + by destruct (db r !! redisKey).
    + cbn. by rewrite !lookup_insert_ne, lookup_empty.
  - intros ->. cbn. apply (right_id_L ∅ (∪)).
Qed.

Lemma union_absorb (m o : gmap string string) : m ∪ (m ∪ o) = m ∪ o.
Proof. by rewrite (assoc_L (∪)), (idemp_L (∪)). Qed.

(** X15: storing the same keyName, token, locale and expiration a second
    time leaves the store exactly as the first time left it. *)
Theorem storeValidJWT_idempotent this keyName rawJWT locale expiration r :
  let r1 := snd (storeValidJWT this keyName rawJWT locale expiration r) in
  db (snd (storeValidJWT this keyName rawJWT locale expiration r1)) = db r1.
Proof.
  intros r1. subst r1.
  destruct (expiration_cases expiration)
    as [(s & n & -> & Hpos & Hacc)|[(s & e & -> & Hpos & Hacc)|Hno]].
  - rewrite !(storeValidJWT_expiring _ _ _ _ _ n) by done. cbn [snd db].
    rewrite !lookup_insert_eq, !insert_insert_eq. f_equal.
    unfold written. cbn [default from_option id fields expiry].
    by rewrite union_absorb.
  - rewrite !(storeValidJWT_refused _ _ _ _ _ e) by done. cbn [snd db].
    rewrite !lookup_insert_eq, !insert_insert_eq. f_equal.
    unfold written. cbn [default from_option id fields expiry].
    by rewrite union_absorb.
  - rewrite !storeValidJWT_persistent by done. cbn [snd db].
    rewrite !lookup_insert_eq, !insert_insert_eq. f_equal.
    unfold written. cbn [default from_option id fields expiry].
    by rewrite union_absorb.
Qed.

(** ** The usage example *)

Lemma validateJWT_db this keyName rawJWT r :
  db (snd (validateJWT this keyName rawJWT r)) = db r.
Proof.
  unfold validateJWT, bind, exists_, throw, ret, sent. cbn.
  destruct (db r !! _); cbn; [reflexivity|]. by destruct (db r !! _).
Qed.

Lemma then_run {A B} (m : Async A) (k : A -> Script B) (w : world) :
  then_ (run m) k w
  = match fst (m (server w)) with
    | Fulfilled a => k a {| server := snd (m (server w)); console := console w |}
    | Rejected e =>
        (Rejected e, {| server := snd (m (server w)); console := console w |})
    end.
Proof. unfold then_, run. by destruct (m (server w)) as [[a|e] r']. Qed.

Lemma run_result {A} (m : Async A) (w : world) :
  run m w = (fst (m (server w)),
             {| server := snd (m (server w)); console := console w |}).
Proof. unfold run. by destruct (m (server w)). Qed.

Lemma deleteAllByKeyName_fulfilled (prefix keyName : string) r :
  fst (deleteAllByKeyName prefix keyName r) = Fulfilled tt.
Proof. by rewrite deleteAllByKeyName_run. Qed.

Lemma validateJWT_blacklisted_run this keyName rawJWT r :
  is_Some (db r !! record_key (prefixBlacklist this) keyName (hashJWT rawJWT)) ->
  validateJWT this keyName rawJWT r
  = (Rejected Blacklisted,
     {| db := db r;
        log := log r ++
          [EXISTS (record_key (prefixBlacklist this) keyName (hashJWT rawJWT))] |}).
Proof.
  intros [e He]. unfold validateJWT, bind, exists_, throw, sent.
  fold (record_key (prefixBlacklist this) keyName (hashJWT rawJWT)).
  rewrite He. reflexivity.
Qed.

Lemma then_print {B} (c : console_call) (k : unit -> Script B) (w : world) :
  then_ (print c) k w = k tt {| server := server w; console := console w ++ [c] |}.
Proof. reflexivity. Qed.

Lemma storeBlacklistedJWT_fulfilled this keyName rawJWT locale expiration r :
  (forall seconds, expiration = Some seconds -> positive_number seconds = true ->
     exists n, accepted_seconds seconds = inr n) ->
  fst (storeBlacklistedJWT this keyName rawJWT locale expiration r) = Fulfilled tt.
Proof. rewrite storeBlacklistedJWT_eq. apply storeValidJWT_fulfilled. Qed.

Lemma storeBlacklistedJWT_present this keyName rawJWT locale expiration r :
  is_Some (db (snd (storeBlacklistedJWT this keyName rawJWT locale expiration r))
           !! record_key (prefixBlacklist this) keyName (hashJWT rawJWT)).
Proof.
  rewrite storeBlacklistedJWT_eq.
  apply (storeValidJWT_present (Store (prefixBlacklist this) (prefixBlacklist this))).
Qed.

Lemma storeBlacklistedJWT_frame this keyName rawJWT locale expiration r (k : string) :
  k <> record_key (prefixBlacklist this) keyName (hashJWT rawJWT) ->
  db (snd (storeBlacklistedJWT this keyName rawJWT locale expiration r)) !! k = db r !! k.
Proof.
  intros Hk. rewrite storeBlacklistedJWT_eq.
  by apply (storeValidJWT_frame (Store (prefixBlacklist this) (prefixBlacklist this))).
Qed.

(** The states that the example goes through when nothing is thrown to the
    outer handler. *)
Lemma basic_usage_run (r : redis) :
  db r !! record_key "blacklisted-jwt" "user123" (hashJWT "eyJhbGcis...") = None ->
  let this := new_store (Some "valid-jwt"%string) (Some "blacklisted-jwt"%string) in
  let r1 := snd (storeValidJWT this "user123" "eyJhbGcis..." "127.0.0.1" (Some (whole 600)) r) in
  let r2 := snd (validateJWT this "user123" "eyJhbGcis..." r1) in
  let r3 := snd (storeBlacklistedJWT this "user123" "eyJhbGcis..." "127.0.0.1"
                   (Some (whole 600)) r2) in
  let r4 := snd (validateJWT this "user123" "eyJhbGcis..." r3) in
  let r5 := snd (deleteAllByKeyName "valid-jwt" "user123" r4) in
  let r6 := snd (deleteAllByKeyName "blacklisted-jwt" "user123" r5) in
  basic_usage {| server := r; console := [] |}
  = (Fulfilled tt,
     {| server := r6;
        console := [ConsoleLog "Validation successful.";
                    ConsoleError "Expected validation error:" Blacklisted] |}).
Proof.
  intros Hb this r1 r2 r3 r4 r5 r6.
  assert (Hv1 : fst (validateJWT this "user123" "eyJhbGcis..." r1) = Fulfilled true).
  { apply validateJWT_verdict_without_blacklist.
    - subst r1. rewrite storeValidJWT_frame; [exact Hb|].
      intros H. apply record_key_prefix_inj in H. discriminate H.
    - subst r1. apply storeValidJWT_present. }
  assert (Hv2 : fst (validateJWT this "user123" "eyJhbGcis..." r3) = Rejected Blacklisted).
  { apply validateJWT_verdict_with_blacklist. subst r3.
    apply storeBlacklistedJWT_present. }
  unfold basic_usage, try_catch at 1. cbv zeta. fold this.
  rewrite then_run. cbn [server console].
  rewrite storeValidJWT_fulfilled by exact six_hundred_accepted. fold r1.
  rewrite then_run. cbn [server console]. rewrite Hv1. fold r2.
  rewrite then_print. cbn [server console app].
  rewrite then_run. cbn [server console].
  rewrite storeBlacklistedJWT_fulfilled by exact six_hundred_accepted. fold r3.
  unfold then_ at 1. unfold try_catch at 1.
  rewrite then_run. cbn [server console]. rewrite Hv2. fold r4.
  unfold print at 1. cbn [server console app].
  rewrite then_run. cbn [server console prefixValid this new_store default from_option id].
  rewrite deleteAllByKeyName_fulfilled. fold r5.
  rewrite run_result. cbn [server console prefixBlacklist this new_store default from_option id].
  rewrite deleteAllByKeyName_fulfilled. fold r6.
  reflexivity.
Qed.

(** X16: on a store where the example's token is not blacklisted for
    [user123], the example prints "Validation successful." and then the
    expected error "JWT is blacklisted", ends normally, and leaves no key
    that starts with [valid-jwt:user123:] or [blacklisted-jwt:user123:];
    every other key is as it was. *)
Theorem basic_usage_cleans_up (r : redis) :
  db r !! record_key "blacklisted-jwt" "user123" (hashJWT "eyJhbGcis...") = None ->
  let res := basic_usage {| server := r; console := [] |} in
  fst res = Fulfilled tt
  /\ console (snd res)
     = [ConsoleLog "Validation successful.";
        ConsoleError "Expected validation error:" Blacklisted]
  /\ forall k : string,
      ((exists rest, k = "valid-jwt:user123:" +:+ rest) ->
       db (server (snd res)) !! k = None)
      /\ ((exists rest, k = "blacklisted-jwt:user123:" +:+ rest) ->
          db (server (snd res)) !! k = None)
      /\ ((~ exists rest, k = "valid-jwt:user123:" +:+ rest) ->
          (~ exists rest, k = "blacklisted-jwt:user123:" +:+ rest) ->
          db (server (snd res)) !! k = db r !! k).
Proof.
  intros Hb res. subst res. rewrite (basic_usage_run r Hb).
  cbn [fst snd server console]. split; [reflexivity|]. split; [reflexivity|].
  intros k. rewrite !deleteAllByKeyName_lookup, !validateJWT_db.
  pose proof (literal_pattern_iff "valid-jwt" "user123" k eq_refl eq_refl) as Hv.
  pose proof (literal_pattern_iff "blacklisted-jwt" "user123" k eq_refl eq_refl) as Hbl.
  change (Glob.glob_match "valid-jwt:user123:*" k = true
          <-> exists rest, k = "valid-jwt:user123:" +:+ rest) in Hv.
  change (Glob.glob_match "blacklisted-jwt:user123:*" k = true
          <-> exists rest, k = "blacklisted-jwt:user123:" +:+ rest) in Hbl.
  change ("blacklisted-jwt" +:+ ":" +:+ "user123" +:+ ":*")%string
    with "blacklisted-jwt:user123:*"%string.
  change ("valid-jwt" +:+ ":" +:+ "user123" +:+ ":*")%string
    with "valid-jwt:user123:*"%string.
  split; [|split].
  - intros Hpre. apply Hv in Hpre. rewrite Hpre.
    by destruct (Glob.glob_match "blacklisted-jwt:user123:*" k).
  - intros Hpre. apply Hbl in Hpre. by rewrite Hpre.
  - intros Hnv Hnb.
    destruct (Glob.glob_match "blacklisted-jwt:user123:*" k) eqn:Hgb;
      [exfalso; by apply Hnb, Hbl|].
    destruct (Glob.glob_match "valid-jwt:user123:*" k) eqn:Hgv;
      [exfalso; by apply Hnv, Hv|].
    rewrite storeBlacklistedJWT_frame.
    + rewrite validateJWT_db. apply storeValidJWT_frame.
      intros ->. apply Hnv. by eexists.
    + intros ->. apply Hnb. by eexists.
Qed.

Lemma basic_usage_run_blacklisted (r : redis) :
  is_Some (db r !! record_key "blacklisted-jwt" "user123" (hashJWT "eyJhbGcis...")) ->
  let this := new_store (Some "valid-jwt"%string) (Some "blacklisted-jwt"%string) in
  let r1 := snd (storeValidJWT this "user123" "eyJhbGcis..." "127.0.0.1" (Some (whole 600)) r) in
  basic_usage {| server := r; console := [] |}
  = (Fulfilled tt,
     {| server :=
          {| db := db r1;
             log := log r1 ++
               [EXISTS (record_key "blacklisted-jwt" "user123" (hashJWT "eyJhbGcis..."))] |};
        console := [ConsoleError "Error:" Blacklisted] |}).
Proof.
  intros Hb this r1.
  assert (Hb1 : is_Some (db r1 !! record_key (prefixBlacklist this) "user123"
                                   (hashJWT "eyJhbGcis..."))).
  { subst r1. rewrite storeValidJWT_frame; [exact Hb|].
    intros H. apply record_key_prefix_inj in H. discriminate H. }
  pose proof (validateJWT_blacklisted_run this "user123" "eyJhbGcis..." r1 Hb1) as Hrun.
  unfold basic_usage, try_catch at 1. cbv zeta. fold this.
  rewrite then_run. cbn [server console].
  rewrite storeValidJWT_fulfilled by exact six_hundred_accepted. fold r1.
  rewrite then_run. cbn [server console]. rewrite Hrun. reflexivity.
Qed.

(** X17: on a store where the example's token is already blacklisted for
    [user123], the first [validateJWT] of the example throws to the outer
    handler: the only console call is the error "JWT is blacklisted", the
    two [deleteAllByKeyName] calls are skipped (no KEYS, no DEL is sent), and
    the valid record that the example has just written stays in the store. *)
Theorem basic_usage_already_blacklisted (r : redis) :
  is_Some (db r !! record_key "blacklisted-jwt" "user123" (hashJWT "eyJhbGcis...")) ->
  let res := basic_usage {| server := r; console := [] |} in
  let validKey := record_key "valid-jwt" "user123" (hashJWT "eyJhbGcis...") in
  fst res = Fulfilled tt
  /\ console (snd res) = [ConsoleError "Error:" Blacklisted]
  /\ is_Some (db (server (snd res)) !! validKey)
  /\ log (server (snd res))
     = log r ++
       [HSET validKey (record_fields "user123" (hashJWT "eyJhbGcis...") "127.0.0.1");
        EXPIRE validKey (whole 600);
        EXISTS (record_key "blacklisted-jwt" "user123" (hashJWT "eyJhbGcis..."))].
Proof.
  intros Hb res validKey. subst res. rewrite (basic_usage_run_blacklisted r Hb).
  cbn [fst snd server console db log].
  split; [reflexivity|]. split; [reflexivity|]. split.
  - subst validKey.
    apply (storeValidJWT_present
             (new_store (Some "valid-jwt"%string) (Some "blacklisted-jwt"%string))).
  - rewrite (storeValidJWT_expiring
               (new_store (Some "valid-jwt"%string) (Some "blacklisted-jwt"%string))
               _ _ _ (whole 600) 600%Z)
      by reflexivity.
    cbn [snd log]. rewrite <- app_assoc. reflexivity.
Qed.

(** * The further properties on concrete stores *)

Lemma deleteRecord_missing_key_witness :
  let r := {| db := ∅; log := [] |} in
  db r !! record_key "valid-jwt" "user123" (hashJWT "tok-A") = None
  /\ fst (deleteRecord "valid-jwt" "user123" "tok-A" r) = Fulfilled tt
  /\ db (snd (deleteRecord "valid-jwt" "user123" "tok-A" r)) = db r.
Proof.
  cbv zeta. split; [reflexivity|].
  apply (deleteRecord_missing_key "valid-jwt" "user123" "tok-A" {| db := ∅; log := [] |}).
  reflexivity.
Defined.

Lemma deleteRecord_reinstates_witness :
  let this := new_store None None in
  let r := snd (bind (storeValidJWT this "user123" "tok-A" "127.0.0.1" (Some (whole 3600)))
                  (fun _ => storeBlacklistedJWT this "user123" "tok-A" "127.0.0.1"
                              (Some (whole 3600)))
                  {| db := ∅; log := [] |}) in
  fst (validateJWT this "user123" "tok-A" r) = Rejected Blacklisted
  /\ fst (validateJWT this "user123" "tok-A"
            (snd (deleteRecord (prefixBlacklist this) "user123" "tok-A" r)))
     = Fulfilled true.
Proof.
  cbv zeta. split; [vm_compute; reflexivity|].
  apply deleteRecord_reinstates.
  - vm_compute. discriminate.
  - vm_compute. eexists. reflexivity.
Defined.

Lemma deleteAllByKeyName_literal_witness :
  let this := new_store None None in
  let r := snd (storeValidJWT this "user123" "tok-1" "127.0.0.1" (Some (whole 3600))
                  {| db := ∅; log := [] |}) in
  let k := record_key "valid-jwt" "user123" (hashJWT "tok-1") in
  is_Some (db r !! k)
  /\ db (snd (deleteAllByKeyName "valid-jwt" "user123" r)) !! k = None.
Proof.
  cbv zeta. split; [vm_compute; eexists; reflexivity|].
  apply (deleteAllByKeyName_literal "valid-jwt" "user123"); [reflexivity..|].
  eexists. reflexivity.
Defined.

Lemma cleanup_then_not_found_witness :
  let this := new_store None None in
  let r := snd (bind (storeValidJWT this "user123" "tok-A" "127.0.0.1" (Some (whole 3600)))
                  (fun _ => storeBlacklistedJWT this "user123" "tok-A" "127.0.0.1"
                              (Some (whole 3600)))
                  {| db := ∅; log := [] |}) in
  fst (validateJWT this "user123" "tok-A"
         (snd (deleteAllByKeyName (prefixBlacklist this) "user123"
                 (snd (deleteAllByKeyName (prefixValid this) "user123" r)))))
  = Rejected NotFound.
Proof.
  cbv zeta. apply cleanup_then_not_found; reflexivity.
Defined.

Lemma star_keyName_deletes_all_witness :
  let this := new_store None None in
  let r := snd (storeValidJWT this "alice" "tok-A" "127.0.0.1" None
                  {| db := ∅; log := [] |}) in
  is_Some (db r !! record_key "valid-jwt" "alice" (hashJWT "tok-A"))
  /\ db (snd (deleteAllByKeyName "valid-jwt" "*" r))
       !! record_key "valid-jwt" "alice" (hashJWT "tok-A") = None.
Proof.
  cbv zeta. split; [vm_compute; eexists; reflexivity|].
  apply star_keyName_deletes_all. reflexivity.
Defined.

Lemma store_leaves_other_records_witness :
  let this := new_store None None in
  let r := snd (storeValidJWT this "bob" "tok-B" "127.0.0.1" None
                  {| db := ∅; log := [] |}) in
  db (snd (storeValidJWT this "alice" "tok-A" "127.0.0.1" (Some (whole 60)) r))
    !! record_key (prefixValid this) "bob" (hashJWT "tok-B")
  = db r !! record_key (prefixValid this) "bob" (hashJWT "tok-B").
Proof.
  cbv zeta. set (r := snd (storeValidJWT _ "bob" _ _ _ _)).
  assert (Hdiff : "alice"%string <> "bob"%string \/ hashJWT "tok-A" <> hashJWT "tok-B").
  { left. discriminate. }
  destruct (store_leaves_other_records (new_store None None) "alice" "tok-A" "127.0.0.1"
              (Some (whole 60)) r "bob" "tok-B" Hdiff) as [Hsame _].
  exact Hsame.
Defined.

Lemma stored_record_reads_back_witness :
  let this := new_store None None in
  let r := {| db := ∅; log := [] |} in
  let redisKey := record_key "valid-jwt" "user123" (hashJWT "tok-A") in
  exists stored : gmap string string,
    fst (hGetAll redisKey
           (snd (storeValidJWT this "user123" "tok-A" "127.0.0.1" (Some (whole 3600)) r)))
    = Fulfilled stored
    /\ stored = list_to_map (record_fields "user123" (hashJWT "tok-A") "127.0.0.1").
Proof.
  cbv zeta.
  destruct (stored_record_reads_back (new_store None None) "user123" "tok-A" "127.0.0.1"
              (Some (whole 3600)) {| db := ∅; log := [] |})
    as (stored & Hget & _ & _ & _ & _ & Hfresh).
  exists stored. split; [exact Hget|]. apply Hfresh. reflexivity.
Defined.

Lemma basic_usage_cleans_up_witness :
  let res := basic_usage {| server := {| db := ∅; log := [] |}; console := [] |} in
  fst res = Fulfilled tt
  /\ console (snd res)
     = [ConsoleLog "Validation successful.";
        ConsoleError "Expected validation error:" Blacklisted].
Proof.
  cbv zeta.
  assert (Hb : db {| db := ∅; log := [] |}
               !! record_key "blacklisted-jwt" "user123" (hashJWT "eyJhbGcis...")
               = None).
  { vm_compute. reflexivity. }
  destruct (basic_usage_cleans_up {| db := ∅; log := [] |} Hb) as (Hok & Hout & _).
  split; [exact Hok | exact Hout].
Defined.

Lemma basic_usage_already_blacklisted_witness :
  let this := new_store None None in
  let r := snd (storeBlacklistedJWT this "user123" "eyJhbGcis..." "10.0.0.1" None
                  {| db := ∅; log := [] |}) in
  let res := basic_usage {| server := r; console := [] |} in
  is_Some (db r !! record_key "blacklisted-jwt" "user123" (hashJWT "eyJhbGcis..."))
  /\ console (snd res) = [ConsoleError "Error:" Blacklisted]
  /\ is_Some (db (server (snd res))
              !! record_key "valid-jwt" "user123" (hashJWT "eyJhbGcis...")).
Proof.
  cbv zeta.
  assert (Hb : is_Some
    (db (snd (storeBlacklistedJWT (new_store None None) "user123" "eyJhbGcis..."
                "10.0.0.1" None {| db := ∅; log := [] |}))
     !! record_key "blacklisted-jwt" "user123" (hashJWT "eyJhbGcis..."))).
  { vm_compute. eexists. reflexivity. }
  split; [exact Hb|].
  destruct (basic_usage_already_blacklisted _ Hb) as (_ & Hout & Hleft & _).
  split; [exact Hout | exact Hleft].
Defined.

(** * Category isolation *)








